(** * Verification of the OCIH Mission Hub command/parameter layer

    Shallow embedding of the parameter table and validator of
    [src/utils/mavlink-parameters.ts] (carried in the workflow file of the
    repository), of the [JSON.parse] override of [src/main.ts], and of the
    dispatcher, safety monitor and geofence check described by the spec for the
    [MAVLinkService] module, which is not part of the sources.

    JavaScript numbers are IEEE-754 binary64 values; they are modelled by Rocq's
    primitive floats, whose comparisons [<?] and [<=?] follow IEEE-754 (every
    comparison with [nan] is false), exactly as JavaScript's [<] and [>]. *)

From Stdlib Require Import Reals Lra Psatz.
From Stdlib Require Import Floats ZArith String List Lia Bool Sorted Permutation.
Import ListNotations.



(** ** Parameter table ([src/utils/mavlink-parameters.ts]) *)

(** [MAVCmd] (imported from [MAVLinkService]): the keys of
    [WAYPOINT_COMMANDS], and [COMPONENT_ARM_DISARM], sent by [setArmed], which
    has no table entry ([getCommandDefinition] returns [undefined]). *)
Inductive MAVCmd :=
| NAV_WAYPOINT | NAV_TAKEOFF | NAV_LAND | NAV_RETURN_TO_LAUNCH
| NAV_LOITER_TIME | NAV_LOITER_UNLIM | DO_SET_ROI | DO_DIGICAM_CONTROL
| DO_CHANGE_SPEED | CONDITION_YAW | COMPONENT_ARM_DISARM.

Scheme Equality for MAVCmd.

(** [export enum MAVFrame]: numeric constants. *)
Module MAVFrame.
Definition GLOBAL : Z := 0.
Definition LOCAL_NED : Z := 1.
Definition MISSION : Z := 2.
Definition GLOBAL_RELATIVE_ALT : Z := 3.
Definition LOCAL_ENU : Z := 4.
Definition GLOBAL_INT : Z := 5.
Definition GLOBAL_RELATIVE_ALT_INT : Z := 6.
Definition LOCAL_OFFSET_NED : Z := 7.
Definition BODY_NED : Z := 8.
Definition BODY_OFFSET_NED : Z := 9.
Definition GLOBAL_TERRAIN_ALT : Z := 10.
Definition GLOBAL_TERRAIN_ALT_INT : Z := 11.
End MAVFrame.

(** [interface WaypointParameter]. The optional fields [description],
    [precision] and [options] are only read by the display helpers and are left
    out; [min] and [max] are optional ([undefined] is [None]). *)
Record WaypointParameter := {
  name : string;
  unit : option string;
  min : option float;
  max : option float;
  default : float
}.

Inductive Category := Navigation | Action | Condition | Camera | Gimbal.
Inductive Platform := ArduPilot | PX4.

(** [interface WaypointCommandDefinition]; the field [name] is [cmdName] here
    (Rocq record fields share one name space), [description] is left out. *)
Record WaypointCommandDefinition := {
  command : MAVCmd;
  cmdName : string;
  category : Category;
  params : list WaypointParameter;
  supportedPlatforms : list Platform;
  frame : Z
}.

(** Every parameter of the table has [unit], [min] and [max] given. *)
Definition P (nm u : string) (lo hi d : float) : WaypointParameter :=
  {| name := nm; unit := Some u; min := Some lo; max := Some hi; default := d |}.

Local Open Scope float_scope.

(** [export const WAYPOINT_COMMANDS], in source order. *)
Definition WAYPOINT_COMMANDS : list (MAVCmd * WaypointCommandDefinition) := [
  (NAV_WAYPOINT, {| command := NAV_WAYPOINT; cmdName := "Waypoint"; category := Navigation;
     supportedPlatforms := [ArduPilot; PX4]; frame := MAVFrame.GLOBAL_RELATIVE_ALT_INT;
     params := [
       P "Hold Time" "seconds" (0) (3600) (0);
       P "Accept Radius" "meters" (0) (1000) (3);
       P "Pass Through" "" (0) (1) (0);
       P "Desired Yaw" "degrees" (-180) (180) (nan);
       P "Latitude" "degrees" (-90) (90) (0);
       P "Longitude" "degrees" (-180) (180) (0);
       P "Altitude" "meters" (-1000) (10000) (50) ] |});
  (NAV_TAKEOFF, {| command := NAV_TAKEOFF; cmdName := "Takeoff"; category := Navigation;
     supportedPlatforms := [ArduPilot; PX4]; frame := MAVFrame.GLOBAL_RELATIVE_ALT_INT;
     params := [
       P "Minimum Pitch" "degrees" (-45) (45) (0);
       P "Empty" "" (0) (0) (0);
       P "Empty" "" (0) (0) (0);
       P "Desired Yaw" "degrees" (-180) (180) (nan);
       P "Latitude" "degrees" (-90) (90) (0);
       P "Longitude" "degrees" (-180) (180) (0);
       P "Altitude" "meters" (1) (1000) (10) ] |});
  (NAV_LAND, {| command := NAV_LAND; cmdName := "Land"; category := Navigation;
     supportedPlatforms := [ArduPilot; PX4]; frame := MAVFrame.GLOBAL_RELATIVE_ALT_INT;
     params := [
       P "Abort Altitude" "meters" (0) (100) (0);
       P "Landing Mode" "" (0) (2) (0);
       P "Empty" "" (0) (0) (0);
       P "Desired Yaw" "degrees" (-180) (180) (nan);
       P "Latitude" "degrees" (-90) (90) (0);
       P "Longitude" "degrees" (-180) (180) (0);
       P "Altitude" "meters" (-1000) (1000) (0) ] |});
  (NAV_RETURN_TO_LAUNCH, {| command := NAV_RETURN_TO_LAUNCH; cmdName := "Return to Launch"; category := Navigation;
     supportedPlatforms := [ArduPilot; PX4]; frame := MAVFrame.MISSION;
     params := [
       P "Empty" "" (0) (0) (0);
       P "Empty" "" (0) (0) (0);
       P "Empty" "" (0) (0) (0);
       P "Empty" "" (0) (0) (0);
       P "Empty" "" (0) (0) (0);
       P "Empty" "" (0) (0) (0);
       P "Empty" "" (0) (0) (0) ] |});
  (NAV_LOITER_TIME, {| command := NAV_LOITER_TIME; cmdName := "Loiter Time"; category := Navigation;
     supportedPlatforms := [ArduPilot; PX4]; frame := MAVFrame.GLOBAL_RELATIVE_ALT_INT;
     params := [
       P "Loiter Time" "seconds" (0) (3600) (10);
       P "Empty" "" (0) (0) (0);
       P "Loiter Radius" "meters" (-1000) (1000) (0);
       P "Exit Heading" "degrees" (-180) (180) (nan);
       P "Latitude" "degrees" (-90) (90) (0);
       P "Longitude" "degrees" (-180) (180) (0);
       P "Altitude" "meters" (-1000) (10000) (50) ] |});
  (NAV_LOITER_UNLIM, {| command := NAV_LOITER_UNLIM; cmdName := "Loiter Unlimited"; category := Navigation;
     supportedPlatforms := [ArduPilot; PX4]; frame := MAVFrame.GLOBAL_RELATIVE_ALT_INT;
     params := [
       P "Empty" "" (0) (0) (0);
       P "Empty" "" (0) (0) (0);
       P "Loiter Radius" "meters" (-1000) (1000) (0);
       P "Exit Heading" "degrees" (-180) (180) (nan);
       P "Latitude" "degrees" (-90) (90) (0);
       P "Longitude" "degrees" (-180) (180) (0);
       P "Altitude" "meters" (-1000) (10000) (50) ] |});
  (DO_SET_ROI, {| command := DO_SET_ROI; cmdName := "Set ROI"; category := Camera;
     supportedPlatforms := [ArduPilot; PX4]; frame := MAVFrame.GLOBAL_RELATIVE_ALT_INT;
     params := [
       P "ROI Mode" "" (0) (4) (0);
       P "Waypoint Index" "" (0) (65535) (0);
       P "ROI Index" "" (0) (255) (0);
       P "Empty" "" (0) (0) (0);
       P "Latitude" "degrees" (-90) (90) (0);
       P "Longitude" "degrees" (-180) (180) (0);
       P "Altitude" "meters" (-1000) (10000) (0) ] |});
  (DO_DIGICAM_CONTROL, {| command := DO_DIGICAM_CONTROL; cmdName := "Camera Trigger"; category := Camera;
     supportedPlatforms := [ArduPilot; PX4]; frame := MAVFrame.MISSION;
     params := [
       P "Session Control" "" (0) (2) (1);
       P "Zoom Position" "" (0) (100) (0);
       P "Zoom Step" "" (-50) (50) (0);
       P "Focus Lock" "" (0) (2) (0);
       P "Shooting Command" "" (0) (1) (1);
       P "Command Identity" "" (0) (255) (0);
       P "Empty" "" (0) (0) (0) ] |});
  (DO_CHANGE_SPEED, {| command := DO_CHANGE_SPEED; cmdName := "Change Speed"; category := Action;
     supportedPlatforms := [ArduPilot; PX4]; frame := MAVFrame.MISSION;
     params := [
       P "Speed Type" "" (0) (3) (0);
       P "Target Speed" "m/s" (0) (50) (10);
       P "Throttle" "%" (-1) (100) (-1);
       P "Relative" "" (0) (1) (0);
       P "Empty" "" (0) (0) (0);
       P "Empty" "" (0) (0) (0);
       P "Empty" "" (0) (0) (0) ] |});
  (CONDITION_YAW, {| command := CONDITION_YAW; cmdName := "Condition Yaw"; category := Condition;
     supportedPlatforms := [ArduPilot; PX4]; frame := MAVFrame.MISSION;
     params := [
       P "Target Angle" "degrees" (-180) (180) (0);
       P "Angular Speed" "deg/s" (0) (180) (0);
       P "Direction" "" (-1) (1) (1);
       P "Relative" "" (0) (1) (0);
       P "Empty" "" (0) (0) (0);
       P "Empty" "" (0) (0) (0);
       P "Empty" "" (0) (0) (0) ] |})
 ].

Local Close Scope float_scope.

(** [getCommandDefinition(command)]: [WAYPOINT_COMMANDS[command]]. *)
Definition getCommandDefinition (c : MAVCmd) : option WaypointCommandDefinition :=
  match find (fun kv => MAVCmd_beq (fst kv) c) WAYPOINT_COMMANDS with
  | Some (_, d) => Some d
  | None => None
  end.

(** [validateParameter(param, value)]:
    [if (param.min !== undefined && value < param.min) return false;
     if (param.max !== undefined && value > param.max) return false;
     return true]. [value > m] is [m < value]. *)
Definition validateParameter (param : WaypointParameter) (value : float) : bool :=
  if match min param with Some m => (value <? m)%float | None => false end then false
  else if match max param with Some m => (m <? value)%float | None => false end then false
  else true.

(** ** Mission/Parameter Validator and Command Dispatcher *)

(** A [CommandRequest] of the spec's data model: the command, its target and
    its 7 parameters (float64), with the confirmation count. *)
Record CommandRequest := {
  reqCommand : MAVCmd;
  targetSystem : Z;
  targetComponent : Z;
  reqParams : list float;
  confirmation : Z
}.

(** The violated bound of a rejected parameter. *)
Inductive Bound := BelowMin (m : float) | AboveMax (m : float).

Inductive ValidationError :=
| UnknownCommand
| WrongArity
| ParamOutOfRange (index : nat) (b : Bound).

(** The bound [validateParameter] fails on, tested in its order
    ([min] first, then [max]); [None] when it returns [true]. *)
Definition paramViolation (param : WaypointParameter) (value : float) : option Bound :=
  match min param with
  | Some m => if (value <? m)%float then Some (BelowMin m) else
      match max param with
      | Some M => if (M <? value)%float then Some (AboveMax M) else None
      | None => None
      end
  | None =>
      match max param with
      | Some M => if (M <? value)%float then Some (AboveMax M) else None
      | None => None
      end
  end.

(** First violation of a parameter list, with its 0-based index. *)
Fixpoint firstViolation (i : nat) (ps : list WaypointParameter) (vs : list float)
  : option (nat * Bound) :=
  match ps, vs with
  | p :: ps', v :: vs' =>
      match paramViolation p v with
      | Some b => Some (i, b)
      | None => firstViolation (S i) ps' vs'
      end
  | _, _ => None
  end.

(** Modelled from the spec: the Mission/Parameter Validator (section 4.5), absent
    from the sources: each of the command's parameters is checked against its
    [CommandParameterSpec] entry; the first out-of-range one rejects the whole
    command, reported with its index and violated bound. *)
Definition validateCommand (cr : CommandRequest) : option ValidationError :=
  match getCommandDefinition (reqCommand cr) with
  | None => Some UnknownCommand
  | Some d =>
      if negb (Nat.eqb (length (reqParams cr)) (length (params d))) then Some WrongArity
      else match firstViolation 0 (params d) (reqParams cr) with
           | Some (i, b) => Some (ParamOutOfRange i b)
           | None => None
           end
  end.

(** An entry of the Dispatcher's queue: the request, whether it is an
    emergency stop, the deadline of its retry budget and the budget (the
    number of retries allowed after the first send). *)
Record QCmd := {
  qreq : CommandRequest;
  qemergency : bool;
  qdeadline : nat;
  qretries : nat
}.

(** [ackTimeoutMs] is the PendingAck deadline of the non-emergency command
    class; [requiresAck] tells which command types are acknowledged. *)
Record DispatcherConfig := {
  maxCommandRateHz : nat;
  queueCapacity : nat;
  maxRetries : nat;
  ackTimeoutMs : nat;
  requiresAck : MAVCmd -> bool
}.

(** The spec fixes the rate, the queue size and the retry budget; the ack
    deadline of the non-emergency class is configurable, 1000 ms here, and
    every command type is acknowledged. *)
Definition defaultConfig : DispatcherConfig :=
  {| maxCommandRateHz := 50; queueCapacity := 64; maxRetries := 3;
     ackTimeoutMs := 1000; requiresAck := fun _ => true |}.

(** PendingAck deadline of the emergency class. *)
Definition EMERGENCY_ACK_TIMEOUT_MS : nat := 50.

Definition ackTimeoutFor (cfg : DispatcherConfig) (c : QCmd) : nat :=
  if qemergency c then EMERGENCY_ACK_TIMEOUT_MS else ackTimeoutMs cfg.

(** Minimum interval between sends, in ms: 1000 / rate, rounded up so that the
    rate is never exceeded (20 ms at the default 50 Hz). *)
Definition minIntervalMs (cfg : DispatcherConfig) : nat :=
  (1000 + maxCommandRateHz cfg - 1) / maxCommandRateHz cfg.

(** A queued command with the number of retries it has left. *)
Record QEntry := {
  ecmd : QCmd;
  eleft : nat
}.

Definition mkEntry (c : QCmd) : QEntry := {| ecmd := c; eleft := qretries c |}.

(** A [PendingAck] entry: the sent command, its send time and its deadline. *)
Record PendingAck := {
  pentry : QEntry;
  psentAt : nat;
  pdeadline : nat
}.

Definition pcmd (p : PendingAck) : QCmd := ecmd (pentry p).

(** Dispatcher state. [sent] is the transport log, newest first, with send
    times in ms, retransmissions included; [pending] the PendingAck table.
    The other logs record how commands leave the dispatcher: [delivered]
    (sent, no acknowledgment required), [acked] (the [ack] events, with the
    round-trip latency), [failed] (the [commandFailed] events), [expired]
    (discarded at their deadline), [superseded] (PendingAck replaced by a
    later command for the same command and target) and [overflow] (dropped by
    the queue-full policy, counted by [droppedCommands]). *)
Record Disp := {
  queue : list QEntry;
  lastSend : option nat;
  sent : list (nat * QCmd);
  pending : list PendingAck;
  delivered : list (nat * QCmd);
  acked : list (nat * QCmd);
  failed : list (nat * QCmd);
  expired : list (nat * QCmd);
  superseded : list QCmd;
  overflow : list QCmd;
  droppedCommands : nat
}.

Definition emptyDisp : Disp :=
  {| queue := []; lastSend := None; sent := []; pending := []; delivered := [];
     acked := []; failed := []; expired := []; superseded := []; overflow := [];
     droppedCommands := 0 |}.

Definition setQueue (q : list QEntry) (d : Disp) : Disp :=
  {| queue := q; lastSend := lastSend d; sent := sent d; pending := pending d;
     delivered := delivered d; acked := acked d; failed := failed d;
     expired := expired d; superseded := superseded d; overflow := overflow d;
     droppedCommands := droppedCommands d |}.

(** The PendingAck key: the (command, target) pair. *)
Definition sameKey (cmd : MAVCmd) (sys comp : Z) (c : QCmd) : bool :=
  MAVCmd_beq (reqCommand (qreq c)) cmd && Z.eqb (targetSystem (qreq c)) sys &&
  Z.eqb (targetComponent (qreq c)) comp.

Definition keyOf (c : QCmd) : QCmd -> bool :=
  sameKey (reqCommand (qreq c)) (targetSystem (qreq c)) (targetComponent (qreq c)).

(** Modelled from the spec: put the queue head [e] on the transport at time
    [t] (section 4.3). A command whose type requires acknowledgment gets a
    PendingAck entry with its class deadline, replacing the outstanding one
    for the same (command, target) pair, if any; another is delivered. *)
Definition transmit (cfg : DispatcherConfig) (t : nat) (e : QEntry) (rest : list QEntry)
    (d : Disp) : Disp :=
  let c := ecmd e in
  if requiresAck cfg (reqCommand (qreq c)) then
    {| queue := rest; lastSend := Some t; sent := (t, c) :: sent d;
       pending := {| pentry := e; psentAt := t; pdeadline := t + ackTimeoutFor cfg c |}
                  :: filter (fun p => negb (keyOf c (pcmd p))) (pending d);
       delivered := delivered d; acked := acked d; failed := failed d;
       expired := expired d;
       superseded := map pcmd (filter (fun p => keyOf c (pcmd p)) (pending d)) ++ superseded d;
       overflow := overflow d; droppedCommands := droppedCommands d |}
  else
    {| queue := rest; lastSend := Some t; sent := (t, c) :: sent d; pending := pending d;
       delivered := (t, c) :: delivered d; acked := acked d; failed := failed d;
       expired := expired d; superseded := superseded d; overflow := overflow d;
       droppedCommands := droppedCommands d |}.

(** Remove the oldest non-critical entry. *)
Fixpoint removeOldestNonCritical (q : list QEntry) : option (QEntry * list QEntry) :=
  match q with
  | [] => None
  | e :: q' =>
      if qemergency (ecmd e) then
        match removeOldestNonCritical q' with
        | Some (x, r) => Some (x, e :: r)
        | None => None
        end
      else Some (e, q')
  end.

(** Modelled from the spec: enqueue (section 4.3). An emergency stop goes to the
    head and bypasses the size limit; otherwise the command is appended and, on a
    full queue, the oldest non-critical entry is dropped and counted. *)
Definition enqueue (cfg : DispatcherConfig) (e : QEntry) (d : Disp) : Disp :=
  if qemergency (ecmd e) then setQueue (e :: queue d) d
  else
    let q := (queue d ++ [e])%list in
    if queueCapacity cfg <? length q then
      match removeOldestNonCritical q with
      | Some (x, q') =>
          {| queue := q'; lastSend := lastSend d; sent := sent d; pending := pending d;
             delivered := delivered d; acked := acked d; failed := failed d;
             expired := expired d; superseded := superseded d;
             overflow := ecmd x :: overflow d; droppedCommands := S (droppedCommands d) |}
      | None => setQueue q d
      end
    else setQueue q d.

(** Modelled from the spec: one step of the send loop at time [t] (section
    4.3). An emergency stop at the head is sent at once (it bypasses the rate
    limiter); a command past its deadline is discarded; otherwise the head is
    sent when the minimum interval since the last send has elapsed, and held
    in the queue when it has not. *)
Definition sendStep (cfg : DispatcherConfig) (t : nat) (d : Disp) : Disp :=
  match queue d with
  | [] => d
  | e :: rest =>
      if qemergency (ecmd e) then transmit cfg t e rest d
      else if qdeadline (ecmd e) <? t then
        {| queue := rest; lastSend := lastSend d; sent := sent d; pending := pending d;
           delivered := delivered d; acked := acked d; failed := failed d;
           expired := (t, ecmd e) :: expired d; superseded := superseded d;
           overflow := overflow d; droppedCommands := droppedCommands d |}
      else match lastSend d with
           | None => transmit cfg t e rest d
           | Some l => if l + minIntervalMs cfg <=? t then transmit cfg t e rest d else d
           end
  end.

(** One retry used. *)
Definition retryEntry (e : QEntry) : QEntry := {| ecmd := ecmd e; eleft := pred (eleft e) |}.

(** Modelled from the spec: PendingAck deadline expiry at time [t] (section
    4.3). A command whose deadline has passed is put back at the head of the
    queue, to be sent again, when it has retries left; otherwise it is
    reported in a [commandFailed] event. Either way its PendingAck is
    removed. *)
Definition expireAcks (t : nat) (d : Disp) : Disp :=
  let due := filter (fun p => pdeadline p <? t) (pending d) in
  {| queue := map (fun p => retryEntry (pentry p)) (filter (fun p => 0 <? eleft (pentry p)) due)
              ++ queue d;
     lastSend := lastSend d; sent := sent d;
     pending := filter (fun p => negb (pdeadline p <? t)) (pending d);
     delivered := delivered d; acked := acked d;
     failed := map (fun p => (t, pcmd p)) (filter (fun p => negb (0 <? eleft (pentry p))) due)
               ++ failed d;
     expired := expired d; superseded := superseded d; overflow := overflow d;
     droppedCommands := droppedCommands d |}.

(** Modelled from the spec: a matching acknowledgment frame received at time
    [t] removes the PendingAck and emits an [ack] event with the round-trip
    latency (section 4.3); an acknowledgment matching no PendingAck is
    ignored. *)
Definition ackReceived (t : nat) (cmd : MAVCmd) (sys comp : Z) (d : Disp) : Disp :=
  {| queue := queue d; lastSend := lastSend d; sent := sent d;
     pending := filter (fun p => negb (sameKey cmd sys comp (pcmd p))) (pending d);
     delivered := delivered d;
     acked := map (fun p => (t - psentAt p, pcmd p))
                  (filter (fun p => sameKey cmd sys comp (pcmd p)) (pending d)) ++ acked d;
     failed := failed d; expired := expired d; superseded := superseded d;
     overflow := overflow d; droppedCommands := droppedCommands d |}.

(** Dispatcher inputs: a submission, a timer tick, an acknowledgment frame. *)
Inductive DispEvent :=
| Submit (t : nat) (c : QCmd)
| Tick (t : nat)
| AckRx (t : nat) (cmd : MAVCmd) (sys comp : Z).

(** Modelled from the spec: the Dispatcher's event loop (section 4.3). A
    submission wakes the send loop; a tick first handles the expired
    PendingAck deadlines. *)
Definition dispStep (cfg : DispatcherConfig) (d : Disp) (ev : DispEvent) : Disp :=
  match ev with
  | Submit t c => sendStep cfg t (enqueue cfg (mkEntry c) d)
  | Tick t => sendStep cfg t (expireAcks t d)
  | AckRx t cmd sys comp => ackReceived t cmd sys comp d
  end.

Definition runDisp (cfg : DispatcherConfig) (d : Disp) (evs : list DispEvent) : Disp :=
  fold_left (dispStep cfg) evs d.

Definition evTime (ev : DispEvent) : nat :=
  match ev with Submit t _ | Tick t | AckRx t _ _ _ => t end.

Definition submittedOf (evs : list DispEvent) : list QCmd :=
  flat_map (fun ev => match ev with Submit _ c => [c] | _ => [] end) evs.

Inductive Verdict := Accepted | Rejected (e : ValidationError).

(** Modelled from the spec: the validator gates the dispatcher; only a command
    that passes [validateCommand] is enqueued. *)
Definition submitCommand (cfg : DispatcherConfig) (t : nat) (cr : CommandRequest)
    (d : Disp) : Verdict * Disp :=
  match validateCommand cr with
  | Some e => (Rejected e, d)
  | None =>
      (Accepted, dispStep cfg d (Submit t {| qreq := cr; qemergency := false;
                                           qdeadline := t + 1000; qretries := maxRetries cfg |}))
  end.

(** MAVLink magic confirmation value forcing an in-flight disarm. *)
Definition FORCE_DISARM_MAGIC : float := 21196%float.

(** Modelled from the spec: the operator's emergency stop, a
    [COMPONENT_ARM_DISARM] disarm request with the force-disarm magic value,
    with the 50 ms emergency ack deadline and a single-retry budget. *)
Definition emergencyStop (t : nat) (sys comp : Z) : QCmd :=
  {| qreq := {| reqCommand := COMPONENT_ARM_DISARM; targetSystem := sys;
                targetComponent := comp;
                reqParams := [0%float; FORCE_DISARM_MAGIC; 0%float; 0%float; 0%float; 0%float; 0%float];
                confirmation := 0 |};
     qemergency := true; qdeadline := t + 50; qretries := 1 |}.

(** ** Safety Monitor *)


(** [FailsafeAction] [{None, HOLD, RTL, LAND}]; [None] is [NoAction]. *)
Inductive FailsafeAction := NoAction | HOLD | RTL | LAND.



(** [actionMap] of [simulateConnectionLoss] in [src/main.ts]. *)
Definition actionMap (key : string) : option FailsafeAction :=
  if String.eqb key "radio_link" then Some RTL
  else if String.eqb key "data_link" then Some HOLD
  else if String.eqb key "gps_loss" then Some LAND
  else if String.eqb key "low_battery" then Some RTL
  else None.








(** ** The [JSON.parse] override of [src/main.ts] *)

(** JavaScript values, as far as [typeof] tells them apart. *)
Inductive JSValue :=
| JSUndefined
| JSNull
| JSBool (b : bool)
| JSNumber (x : float)
| JSBigInt (z : Z)
| JSString (s : string)
| JSSymbol (id : nat)
| JSObject (id : nat)
| JSFunction (id : nat).

Definition typeof (v : JSValue) : string :=
  match v with
  | JSUndefined => "undefined"
  | JSNull => "object"
  | JSBool _ => "boolean"
  | JSNumber _ => "number"
  | JSBigInt _ => "bigint"
  | JSString _ => "string"
  | JSSymbol _ => "symbol"
  | JSObject _ => "object"
  | JSFunction _ => "function"
  end.

(** Completion of a call: a returned value or a thrown one. *)
Inductive Completion :=
| Normal (v : JSValue)
| Throw (e : JSValue).

Section JSONOverride.

(** The saved [originalJSONParse], called with [this], [text] and [reviver];
    it may throw, also through the reviver. *)
Variable originalJSONParse : JSValue -> JSValue -> JSValue -> Completion.

(** The installed [JSON.parse]: its completion and the [console.warn] lines. *)
Definition JSON_parse (this text reviver : JSValue) : Completion * list string :=
  if negb (String.eqb (typeof text) "string") then
    (Normal text, [String.append "JSON.parse called with non-string: " (typeof text)])
  else
    match originalJSONParse this text reviver with
    | Normal v => (Normal v, [])
    | Throw err => (Normal JSNull, ["JSON.parse error (possibly browser extension):"%string])
    end.

End JSONOverride.

(** ** Geofence check *)

(** [GeofenceConfig]; coordinates in degrees, lengths in meters. *)
Record GeofenceConfig := {
  centerLat : R;
  centerLon : R;
  radiusMeters : R;
  maxAltitudeMeters : R
}.

Record Waypoint := { lat : R; lon : R; alt : R }.

(** [COLUMBIA_SC_SAFETY_LIMITS.maxAltitude] and [.geofenceRadius], around the
    center [34.0000 N, 81.0000 W] of [package.json]. *)
Definition COLUMBIA_SC_GEOFENCE : GeofenceConfig :=
  {| centerLat := 34.0%R; centerLon := (-81.0)%R;
     radiusMeters := 32186.88%R; maxAltitudeMeters := 120%R |}.

(** Mean Earth radius, in meters. *)
Definition EARTH_RADIUS_M : R := 6371000%R.

Definition deg2rad (x : R) : R := (x * PI / 180)%R.

(** Great-circle distance (haversine form), in meters. *)
Definition greatCircleDistance (lat1 lon1 lat2 lon2 : R) : R :=
  let p1 := deg2rad lat1 in
  let p2 := deg2rad lat2 in
  let dp := deg2rad (lat2 - lat1) in
  let dl := deg2rad (lon2 - lon1) in
  let h := (Rsqr (sin (dp / 2)) + cos p1 * cos p2 * Rsqr (sin (dl / 2)))%R in
  (2 * EARTH_RADIUS_M * asin (R_sqrt.sqrt h))%R.

Inductive GeofenceViolation := OutsideRadius | AltitudeExceeded.

(** Modelled from the spec: the geofence part of the Mission/Parameter
    Validator (section 4.5), absent from the sources: reject when the
    great-circle distance from the center exceeds [radiusMeters], or when the
    altitude exceeds [maxAltitudeMeters]. *)
Definition validateGeofence (g : GeofenceConfig) (w : Waypoint) : option GeofenceViolation :=
  if Rlt_dec (radiusMeters g) (greatCircleDistance (centerLat g) (centerLon g) (lat w) (lon w))
  then Some OutsideRadius
  else if Rlt_dec (maxAltitudeMeters g) (alt w) then Some AltitudeExceeded
  else None.

(** An empty command definition (default of a failed lookup). *)
Definition emptyDef : WaypointCommandDefinition :=
  {| command := NAV_WAYPOINT; cmdName := ""; category := Navigation; params := [];
     supportedPlatforms := []; frame := 0 |}.

(** ** Sample inputs *)

(** A waypoint request whose altitude (param7) is above its maximum. *)
Definition sampleWaypointTooHigh : CommandRequest :=
  {| reqCommand := NAV_WAYPOINT; targetSystem := 1; targetComponent := 1;
     reqParams := [0%float; 3%float; 0%float; nan; 34.5%float; (-81.5)%float; 20000%float];
     confirmation := 0 |}.

(** A waypoint request with two bad parameters: the acceptance radius (param2)
    below its minimum and the altitude (param7) above its maximum. *)
Definition sampleWaypointTwoErrors : CommandRequest :=
  {| reqCommand := NAV_WAYPOINT; targetSystem := 1; targetComponent := 1;
     reqParams := [0%float; (-5)%float; 0%float; 0%float; 34.5%float; (-81.5)%float; 20000%float];
     confirmation := 0 |}.

(** A queued (already validated) non-emergency command. *)
Definition sampleCmd : QCmd :=
  {| qreq := sampleWaypointTooHigh; qemergency := false; qdeadline := 1000; qretries := 3 |}.

(** A stand-in for the engine's parser in concrete runs: it accepts the
    texts [null], [true] and [false] and throws a [SyntaxError] object on
    any other string. *)
Definition sampleOriginalParse (this text reviver : JSValue) : Completion :=
  match text with
  | JSString s =>
      if String.eqb s "null" then Normal JSNull
      else if String.eqb s "true" then Normal (JSBool true)
      else if String.eqb s "false" then Normal (JSBool false)
      else Throw (JSObject 0)
  | _ => Throw (JSObject 0)
  end.

(** ** The resizable viewport component of [src/main.ts] *)

(** [Math.max(a, b)]: [NaN] if either argument is [NaN]; of two equal
    values (the zeros of both signs), the one that is not [-0]. *)
Definition Math_max (a b : float) : float :=
  if is_nan a || is_nan b then nan
  else if (a <? b)%float then b
  else if (b <? a)%float then a
  else if get_sign a then b else a.

(** [Math.min(a, b)]: [NaN] if either argument is [NaN]; of two equal
    values, [-0] if one of them is [-0]. *)
Definition Math_min (a b : float) : float :=
  if is_nan a || is_nan b then nan
  else if (a <? b)%float then a
  else if (b <? a)%float then b
  else if get_sign a then a else b.

(** A key of a float in [Z * Z * Z] whose lexicographic order is the IEEE
    order on non-NaN values: sign class, then exponent, then mantissa. *)
Definition sfKey (f : spec_float) : Z * Z * Z :=
  match f with
  | S754_infinity true => (0, 0, 0)%Z
  | S754_finite true m e => (1, - e, Zneg m)%Z
  | S754_zero _ | S754_nan => (2, 0, 0)%Z
  | S754_finite false m e => (3, e, Zpos m)%Z
  | S754_infinity false => (4, 0, 0)%Z
  end.

Definition lexLt (k k' : Z * Z * Z) : Prop :=
  let '(a, b, c) := k in let '(a', b', c') := k' in
  (a < a' \/ (a = a' /\ (b < b' \/ (b = b' /\ c < c'))))%Z.

Definition lexCompare (k k' : Z * Z * Z) : comparison :=
  let '(a, b, c) := k in let '(a', b', c') := k' in
  match Z.compare a a' with
  | Eq => match Z.compare b b' with Eq => Z.compare c c' | r => r end
  | r => r
  end.

Definition fkey (x : float) : Z * Z * Z := sfKey (Prim2SF x).

(** [interface ViewportSize { width: number; height: number }]. *)
Record ViewportSize := { width : float; height : float }.

(** The props used by the sizing code. *)
Record ViewportProps := {
  defaultSize : ViewportSize;
  minSize : ViewportSize;
  maxSize : ViewportSize;
  enableMissionPlanning : bool
}.

(** [withDefaults(defineProps<Props>(), {...})]. *)
Definition defaultViewportProps : ViewportProps :=
  {| defaultSize := {| width := 800; height := 600 |};
     minSize := {| width := 320; height := 240 |};
     maxSize := {| width := 1920; height := 1080 |};
     enableMissionPlanning := false |}.

(** [validateSize(size)]:
    [Math.max(props.minSize.width, Math.min(props.maxSize.width, size.width))],
    and the same for the height. *)
Definition validateSize (props : ViewportProps) (size : ViewportSize) : ViewportSize :=
  {| width := Math_max (width (minSize props)) (Math_min (width (maxSize props)) (width size));
     height := Math_max (height (minSize props)) (Math_min (height (maxSize props)) (height size)) |}.

(** No dimension of [s] compares below its minimum or above its maximum. *)
Definition withinBounds (props : ViewportProps) (s : ViewportSize) : bool :=
  negb (width s <? width (minSize props))%float && negb (width (maxSize props) <? width s)%float &&
  negb (height s <? height (minSize props))%float && negb (height (maxSize props) <? height s)%float.

(** The closures [handleResize] and [stopResize] created by one call of
    [startResize], with what they capture: [startX], [startY] and the copy
    [startSize] of [currentSize]. The pair is identified by [listenerId]; the
    mouse and touch registrations of the pair are added and removed together. *)
Record DragListener := { listenerId : nat; startX : float; startY : float; startSize : ViewportSize }.

(** The refs [currentSize] and [isResizing], the registered document
    listeners, and the [size-change] events emitted so far. *)
Record ViewState := {
  currentSize : ViewportSize;
  isResizing : bool;
  listeners : list DragListener;
  nextListenerId : nat;
  sizeChanges : list ViewportSize
}.

(** [currentSize = ref({ ...props.defaultSize })], [isResizing = ref(false)]. *)
Definition initialView (props : ViewportProps) : ViewState :=
  {| currentSize := defaultSize props; isResizing := false; listeners := [];
     nextListenerId := 0; sizeChanges := [] |}.

(** [mousedown]/[touchstart] on the handle, [mousemove]/[touchmove] and
    [mouseup]/[touchend] on the document, with the client coordinates. *)
Inductive PointerEvent :=
| PointerDown (x y : float)
| PointerMove (x y : float)
| PointerUp.

(** [startResize(event)]: [isResizing.value = true], then the two closures
    are registered on [document]. *)
Definition startResize (st : ViewState) (x y : float) : ViewState :=
  {| currentSize := currentSize st; isResizing := true;
     listeners := listeners st ++ [{| listenerId := nextListenerId st; startX := x; startY := y;
                                     startSize := currentSize st |}];
     nextListenerId := S (nextListenerId st); sizeChanges := sizeChanges st |}.

(** [handleResize(e)]: returns if [!isResizing.value]; otherwise sets
    [currentSize] to [validateSize] of the start size moved by the pointer's
    displacement and emits [size-change] with it. *)
Definition handleResize (props : ViewportProps) (l : DragListener) (x y : float) (st : ViewState) : ViewState :=
  if negb (isResizing st) then st else
  let deltaX := (x - startX l)%float in
  let deltaY := (y - startY l)%float in
  let newSize := validateSize props {| width := (width (startSize l) + deltaX)%float;
                                       height := (height (startSize l) + deltaY)%float |} in
  {| currentSize := newSize; isResizing := isResizing st; listeners := listeners st;
     nextListenerId := nextListenerId st; sizeChanges := sizeChanges st ++ [newSize] |}.

(** [stopResize()]: [isResizing.value = false] and its own pair of closures
    is removed from [document]. *)
Definition stopResize (l : DragListener) (st : ViewState) : ViewState :=
  {| currentSize := currentSize st; isResizing := false;
     listeners := filter (fun l' => negb (Nat.eqb (listenerId l') (listenerId l))) (listeners st);
     nextListenerId := nextListenerId st; sizeChanges := sizeChanges st |}.

(** One event: a move or release is dispatched to the listeners registered
    when the dispatch starts, in registration order. *)
Definition viewStep (props : ViewportProps) (st : ViewState) (ev : PointerEvent) : ViewState :=
  match ev with
  | PointerDown x y => startResize st x y
  | PointerMove x y => fold_left (fun s l => handleResize props l x y s) (listeners st) st
  | PointerUp => fold_left (fun s l => stopResize l s) (listeners st) st
  end.

Definition runViewFrom (props : ViewportProps) (st : ViewState) (evs : list PointerEvent) : ViewState :=
  fold_left (viewStep props) evs st.

Definition runView (props : ViewportProps) (evs : list PointerEvent) : ViewState :=
  runViewFrom props (initialView props) evs.

Definition isMove (ev : PointerEvent) : bool :=
  match ev with PointerMove _ _ => true | _ => false end.

(** Every emitted size, and the current size unless it is still the
    default, lies within the bounds. *)
Definition ViewInv (props : ViewportProps) (st : ViewState) : Prop :=
  Forall (fun s => withinBounds props s = true) (sizeChanges st) /\
  (currentSize st = defaultSize props \/ withinBounds props (currentSize st) = true).

(** Props whose minimum exceeds their maximum in both dimensions. *)
Definition invertedViewportProps : ViewportProps :=
  {| defaultSize := {| width := 800; height := 600 |};
     minSize := {| width := 500; height := 500 |};
     maxSize := {| width := 100; height := 100 |};
     enableMissionPlanning := false |}.

(** ** Display helpers of [src/utils/mavlink-parameters.ts] *)

(** A call that returns a value or throws a [TypeError]. *)
Inductive Outcome (A : Type) := Returns (a : A) | ThrowsTypeError.
Arguments Returns {A} a.
Arguments ThrowsTypeError {A}.

(** The number [k] as a float. *)
Definition float_of_nat (k : nat) : float := PrimFloat.of_uint63 (Uint63.of_Z (Z.of_nat k)).

(** [xs[i]] for an array [xs] and a number [i] (the list's head has index
    [k]): the element whose index equals [i] ([-0] names element 0), or
    [undefined] when there is none, e.g. for [NaN] or [2.5]. *)
Fixpoint jsArrayGet {A} (xs : list A) (k : nat) (i : float) : option A :=
  match xs with
  | [] => None
  | x :: r => if PrimFloat.eqb i (float_of_nat k) then Some x else jsArrayGet r (S k) i
  end.

(** [getParameterDisplayName(command, paramIndex)]: the label
    [`Param ${paramIndex + 1}`] (the number-to-string conversion is a
    parameter) for an unknown command or an index [< 0] or [>= 7], otherwise
    [definition.params[paramIndex].name], which throws a [TypeError] when
    [params[paramIndex]] is [undefined]. *)
Definition getParameterDisplayName (numberToString : float -> string) (command : MAVCmd) (paramIndex : float)
  : Outcome string :=
  let label := String.append "Param " (numberToString (paramIndex + 1)%float) in
  match getCommandDefinition command with
  | None => Returns label
  | Some definition =>
      if (paramIndex <? 0)%float || (7 <=? paramIndex)%float then Returns label
      else match jsArrayGet (params definition) 0 paramIndex with
           | Some p => Returns (name p)
           | None => ThrowsTypeError
           end
  end.

(** The string literals of the [category] field. *)
Definition categoryKey (c : Category) : string :=
  match c with
  | Navigation => "Navigation" | Action => "Action" | Condition => "Condition"
  | Camera => "Camera" | Gimbal => "Gimbal"
  end.

(** A [Record<string, ...>] built from [{}] as its own keys in insertion
    order; [lookupKey] is [obj[k]] on them. *)
Definition lookupKey {V} (k : string) (m : list (string * V)) : option V :=
  match find (fun kv => String.eqb (fst kv) k) m with
  | Some (_, v) => Some v
  | None => None
  end.

(** The [forEach] callback of [getCommandsByCategory]:
    [if (!categories[definition.category]) categories[definition.category] = []],
    then [categories[definition.category].push(definition.command)]. *)
Definition pushCategory (categories : list (string * list MAVCmd)) (definition : WaypointCommandDefinition)
  : list (string * list MAVCmd) :=
  let k := categoryKey (category definition) in
  match lookupKey k categories with
  | None => categories ++ [(k, [command definition])]
  | Some _ => map (fun kv => if String.eqb (fst kv) k then (fst kv, snd kv ++ [command definition]) else kv)
                  categories
  end.

(** [getCommandsByCategory()], over [values], the list
    [Object.values(WAYPOINT_COMMANDS)] in the engine's enumeration order. *)
Definition getCommandsByCategory (values : list WaypointCommandDefinition) : list (string * list MAVCmd) :=
  fold_left pushCategory values [].

(** The commands of [values] in category [k], in order. *)
Definition commandsIn (k : string) (values : list WaypointCommandDefinition) : list MAVCmd :=
  map command (filter (fun d => String.eqb (categoryKey (category d)) k) values).

(** ** [actionMap[type] || 'HOLD'] in [simulateConnectionLoss] of [src/main.ts] *)

(** The keys an object literal inherits from [Object.prototype]. *)
Definition objectPrototypeKeys : list string :=
  ["constructor"; "__defineGetter__"; "__defineSetter__"; "hasOwnProperty"; "__lookupGetter__";
   "__lookupSetter__"; "isPrototypeOf"; "propertyIsEnumerable"; "toString"; "valueOf"; "__proto__";
   "toLocaleString"]%string.

(** [actionMap[type]] on the object literal: its own four keys, then the
    inherited ones ([__proto__] yields [Object.prototype], the others yield
    functions), else [undefined]. *)
Definition actionMapGet (key : string) : JSValue :=
  if String.eqb key "radio_link" then JSString "RTL"
  else if String.eqb key "data_link" then JSString "HOLD"
  else if String.eqb key "gps_loss" then JSString "LAND"
  else if String.eqb key "low_battery" then JSString "RTL"
  else if String.eqb key "__proto__" then JSObject 0
  else if existsb (String.eqb key) objectPrototypeKeys then JSFunction 0
  else JSUndefined.

(** JavaScript's [ToBoolean]. *)
Definition truthy (v : JSValue) : bool :=
  match v with
  | JSUndefined | JSNull => false
  | JSBool b => b
  | JSNumber x => negb (PrimFloat.eqb x 0 || is_nan x)
  | JSBigInt z => negb (Z.eqb z 0)
  | JSString s => negb (String.eqb s "")
  | JSSymbol _ | JSObject _ | JSFunction _ => true
  end.

(** [safetyActionTaken: actionMap[type] || 'HOLD']. *)
Definition safetyActionTaken (type : string) : JSValue :=
  let v := actionMapGet type in if truthy v then v else JSString "HOLD".

(** The strings of the failsafe actions. *)
Definition failsafeActionName (a : FailsafeAction) : string :=
  match a with NoAction => "none" | HOLD => "HOLD" | RTL => "RTL" | LAND => "LAND" end.

(** IEEE-754's total order on non-NaN floats as a key, with [-0] below
    [+0]; [Math.min] and [Math.max] return the operand of least and greatest
    key. *)
Definition tkey (x : float) : Z * Z * Z :=
  match Prim2SF x with
  | S754_zero s => (2, 0, if s then 0 else 1)%Z
  | f => sfKey f
  end.

Definition tltb (k k' : Z * Z * Z) : bool :=
  match lexCompare k k' with Lt => true | _ => false end.

(** The size [handleResize] of the press [l] computes for the pointer at
    [(x, y)]. *)
Definition dragTarget (props : ViewportProps) (x y : float) (l : DragListener) : ViewportSize :=
  validateSize props {| width := (width (startSize l) + (x - startX l))%float;
                        height := (height (startSize l) + (y - startY l))%float |}.

(** * Properties *)

(** ** IEEE comparisons with NaN *)

Lemma ltb_nan_l : forall x : float, (nan <? x)%float = false.
Proof. intros x. rewrite ltb_spec. cbn. destruct (Prim2SF x); reflexivity. Qed.

Lemma ltb_nan_r : forall x : float, (x <? nan)%float = false.
Proof. intros x. rewrite ltb_spec. cbn. destruct (Prim2SF x) as [s|s| |s m e]; try destruct s; reflexivity. Qed.

(** ** The parameter table *)

Example validateParameter_in_range :
  validateParameter (P "Altitude" "meters" (-1000)%float 10000%float 50%float) 50%float = true.
Proof. reflexivity. Qed.

Example validateParameter_above_max :
  validateParameter (P "Altitude" "meters" (-1000)%float 10000%float 50%float) 10001%float = false.
Proof. reflexivity. Qed.

Lemma getCommandDefinition_arity : forall c d,
  getCommandDefinition c = Some d -> length (params d) = 7.
Proof. intros c d H; destruct c; cbn in H; inversion H; reflexivity. Qed.

Lemma paramViolation_validateParameter : forall p v,
  paramViolation p v = None <-> validateParameter p v = true.
Proof.
  intros p v; unfold paramViolation, validateParameter.
  destruct (min p) as [m|]; [destruct (v <? m)%float|];
    destruct (max p) as [M|]; try destruct (M <? v)%float; split; congruence.
Qed.

Lemma paramViolation_bound : forall p v b,
  paramViolation p v = Some b ->
  match b with
  | BelowMin m => min p = Some m /\ (v <? m)%float = true
  | AboveMax M => max p = Some M /\ (M <? v)%float = true
  end.
Proof.
  intros p v b; unfold paramViolation.
  destruct (min p) as [m|] eqn:Hm; [destruct (v <? m)%float eqn:Hlt|];
    try (intros H; inversion H; subst; auto; fail);
    destruct (max p) as [M|] eqn:HM; try destruct (M <? v)%float eqn:Hgt;
    intros H; inversion H; subst; auto.
Qed.

Lemma validateParameter_false_iff : forall p v,
  validateParameter p v = false <->
  (exists m, min p = Some m /\ (v <? m)%float = true) \/
  (exists M, max p = Some M /\ (M <? v)%float = true).
Proof.
  intros p v; unfold validateParameter.
  destruct (min p) as [m|]; [destruct (v <? m)%float eqn:Hlt|];
    destruct (max p) as [M|]; try destruct (M <? v)%float eqn:Hgt;
    split; intros H; try reflexivity; try discriminate;
    try (left; eexists; split; [reflexivity|assumption]; fail);
    try (right; eexists; split; [reflexivity|assumption]; fail);
    destruct H as [[x [Hx Hx']]|[x [Hx Hx']]]; inversion Hx; subst; congruence.
Qed.

Lemma firstViolation_none : forall ps vs i0,
  firstViolation i0 ps vs = None ->
  forall k p v, nth_error ps k = Some p -> nth_error vs k = Some v ->
  paramViolation p v = None.
Proof.
  induction ps as [|p0 ps IH]; intros vs i0 H k p v Hp Hv.
  - destruct k; discriminate.
  - destruct vs as [|v0 vs]; [destruct k; discriminate|].
    cbn in H. destruct (paramViolation p0 v0) eqn:E; [discriminate|].
    destruct k as [|k]; cbn in Hp, Hv.
    + inversion Hp; inversion Hv; subst; exact E.
    + exact (IH vs (S i0) H k p v Hp Hv).
Qed.

Lemma firstViolation_some : forall ps vs i0 j b,
  firstViolation i0 ps vs = Some (j, b) ->
  exists k p v, j = i0 + k /\ nth_error ps k = Some p /\ nth_error vs k = Some v /\
    paramViolation p v = Some b /\
    (forall k' p' v', k' < k -> nth_error ps k' = Some p' -> nth_error vs k' = Some v' ->
       paramViolation p' v' = None).
Proof.
  induction ps as [|p0 ps IH]; intros vs i0 j b H; [discriminate|].
  destruct vs as [|v0 vs]; [discriminate|].
  cbn in H. destruct (paramViolation p0 v0) eqn:E.
  - inversion H; subst. exists 0, p0, v0.
    split; [lia|]. split; [reflexivity|]. split; [reflexivity|]. split; [exact E|].
    intros k' p' v' Hk'; lia.
  - destruct (IH vs (S i0) j b H) as (k & p & v & Hj & Hp & Hv & Hb & Hmin).
    exists (S k), p, v.
    split; [lia|]. split; [exact Hp|]. split; [exact Hv|]. split; [exact Hb|].
    intros k' p' v' Hk' Hp' Hv'. destruct k' as [|k']; cbn in Hp', Hv'.
    + inversion Hp'; inversion Hv'; subst; exact E.
    + apply (Hmin k'); auto; lia.
Qed.

(** ** Validation of commands (C1, C6) *)

Lemma validateCommand_table : forall cr d,
  getCommandDefinition (reqCommand cr) = Some d ->
  length (reqParams cr) = length (params d) ->
  validateCommand cr = match firstViolation 0 (params d) (reqParams cr) with
                       | Some (i, b) => Some (ParamOutOfRange i b)
                       | None => None
                       end.
Proof.
  intros cr d Hd Hlen. unfold validateCommand. rewrite Hd, Hlen, Nat.eqb_refl. reflexivity.
Qed.

(** C1: for a command of the table and a parameter index [i] (0..6), the
    value of parameter [i] makes [validateParameter] return [false] exactly when
    it is below the parameter's [min] or above its [max]; and when it is, the
    command is rejected and the dispatcher's state is left unchanged (nothing
    is enqueued or sent). *)
Theorem validator_rejects_out_of_range :
  forall c d cr i p v,
    getCommandDefinition c = Some d ->
    reqCommand cr = c ->
    length (reqParams cr) = 7 ->
    nth_error (params d) i = Some p ->
    nth_error (reqParams cr) i = Some v ->
    (validateParameter p v = false <->
       (exists m, min p = Some m /\ (v <? m)%float = true) \/
       (exists M, max p = Some M /\ (M <? v)%float = true)) /\
    (((exists m, min p = Some m /\ (v <? m)%float = true) \/
      (exists M, max p = Some M /\ (M <? v)%float = true)) ->
     forall cfg t disp, exists e, submitCommand cfg t cr disp = (Rejected e, disp)).
Proof.
  intros c d cr i p v Hd Hc Hlen Hp Hv.
  split; [apply validateParameter_false_iff|].
  intros Hout cfg t disp.
  apply validateParameter_false_iff in Hout.
  unfold submitCommand.
  subst c.
  rewrite (validateCommand_table cr d Hd) by (rewrite Hlen; symmetry; exact (getCommandDefinition_arity _ _ Hd)).
  destruct (firstViolation 0 (params d) (reqParams cr)) as [[j b]|] eqn:E.
  - eexists; reflexivity.
  - pose proof (firstViolation_none _ _ _ E i p v Hp Hv) as Hn.
    apply paramViolation_validateParameter in Hn. congruence.
Qed.

Lemma validator_rejects_out_of_range_witness :
  exists d p, getCommandDefinition NAV_WAYPOINT = Some d /\
    nth_error (params d) 6 = Some p /\
    ((validateParameter p 20000%float = false <->
       (exists m, min p = Some m /\ (20000 <? m)%float = true) \/
       (exists M, max p = Some M /\ (M <? 20000)%float = true)) /\
     (((exists m, min p = Some m /\ (20000 <? m)%float = true) \/
       (exists M, max p = Some M /\ (M <? 20000)%float = true)) ->
      forall cfg t disp, exists e, submitCommand cfg t sampleWaypointTooHigh disp = (Rejected e, disp))).
Proof.
  do 2 eexists. split; [reflexivity|]. split; [reflexivity|].
  eapply (validator_rejects_out_of_range NAV_WAYPOINT _ sampleWaypointTooHigh 6 _ 20000%float);
    reflexivity.
Defined.

(** C6: validation is all-or-nothing. A command of the table with at least one
    out-of-range parameter is rejected as a whole, with the first violation:
    its index [j], the least index whose value fails [validateParameter], and
    the bound it violates; the dispatcher's state is unchanged. *)
Theorem validator_reports_first_violation :
  forall cr d i p v,
    getCommandDefinition (reqCommand cr) = Some d ->
    length (reqParams cr) = length (params d) ->
    nth_error (params d) i = Some p ->
    nth_error (reqParams cr) i = Some v ->
    validateParameter p v = false ->
    exists j pj vj b,
      validateCommand cr = Some (ParamOutOfRange j b) /\
      j <= i /\
      nth_error (params d) j = Some pj /\
      nth_error (reqParams cr) j = Some vj /\
      validateParameter pj vj = false /\
      match b with
      | BelowMin m => min pj = Some m /\ (vj <? m)%float = true
      | AboveMax M => max pj = Some M /\ (M <? vj)%float = true
      end /\
      (forall k pk vk, k < j -> nth_error (params d) k = Some pk ->
         nth_error (reqParams cr) k = Some vk -> validateParameter pk vk = true) /\
      (forall cfg t disp, submitCommand cfg t cr disp = (Rejected (ParamOutOfRange j b), disp)).
Proof.
  intros cr d i p v Hd Hlen Hp Hv Hbad.
  pose proof (validateCommand_table cr d Hd Hlen) as Hval.
  destruct (firstViolation 0 (params d) (reqParams cr)) as [[j b]|] eqn:E.
  - destruct (firstViolation_some _ _ _ _ _ E) as (k & pj & vj & Hj & Hpj & Hvj & Hb & Hmin).
    cbn in Hj; subst j.
    assert (Hki : k <= i).
    { destruct (Nat.le_gt_cases k i) as [Hle|Hgt]; [exact Hle|].
      pose proof (Hmin i p v Hgt Hp Hv) as Hn.
      apply paramViolation_validateParameter in Hn. congruence. }
    exists k, pj, vj, b.
    split; [exact Hval|]. split; [exact Hki|]. split; [exact Hpj|]. split; [exact Hvj|].
    split.
    { destruct (validateParameter pj vj) eqn:Hvp; [|reflexivity].
      apply paramViolation_validateParameter in Hvp. congruence. }
    split; [exact (paramViolation_bound _ _ _ Hb)|].
    split.
    { intros k' pk vk Hk' Hpk Hvk. apply paramViolation_validateParameter.
      exact (Hmin k' pk vk Hk' Hpk Hvk). }
    intros cfg t disp. unfold submitCommand. rewrite Hval. reflexivity.
  - pose proof (firstViolation_none _ _ _ E i p v Hp Hv) as Hn.
    apply paramViolation_validateParameter in Hn. congruence.
Qed.

Lemma validator_reports_first_violation_witness :
  exists d p j pj vj b,
    getCommandDefinition NAV_WAYPOINT = Some d /\
    nth_error (params d) 6 = Some p /\
    validateCommand sampleWaypointTwoErrors = Some (ParamOutOfRange j b) /\
    j <= 6 /\
    nth_error (params d) j = Some pj /\
    nth_error (reqParams sampleWaypointTwoErrors) j = Some vj /\
    validateParameter pj vj = false /\
    match b with
    | BelowMin m => min pj = Some m /\ (vj <? m)%float = true
    | AboveMax M => max pj = Some M /\ (M <? vj)%float = true
    end /\
    (forall k pk vk, k < j -> nth_error (params d) k = Some pk ->
       nth_error (reqParams sampleWaypointTwoErrors) k = Some vk -> validateParameter pk vk = true) /\
    (forall cfg t disp,
       submitCommand cfg t sampleWaypointTwoErrors disp = (Rejected (ParamOutOfRange j b), disp)).
Proof.
  destruct (validator_reports_first_violation sampleWaypointTwoErrors
              (match getCommandDefinition NAV_WAYPOINT with Some d => d | None => emptyDef end) 6
              (P "Altitude" "meters" (-1000)%float 10000%float 50%float) 20000%float)
    as (j & pj & vj & b & H); try reflexivity.
  exists (match getCommandDefinition NAV_WAYPOINT with Some d => d | None => emptyDef end),
    (P "Altitude" "meters" (-1000)%float 10000%float 50%float), j, pj, vj, b.
  split; [reflexivity|]. split; [reflexivity|]. exact H.
Defined.

Example validator_reports_first_violation_index :
  validateCommand sampleWaypointTwoErrors = Some (ParamOutOfRange 1 (BelowMin 0%float)).
Proof. reflexivity. Qed.

(** ** The table's defaults and NaN (C8, C9) *)

(** C8: [validateParameter(p, NaN)] is [true] for every parameter [p],
    whatever its bounds: both comparisons with NaN are false. *)
Theorem validateParameter_nan : forall p, validateParameter p nan = true.
Proof.
  intros p. unfold validateParameter.
  destruct (min p); [rewrite ltb_nan_l|]; destruct (max p); try rewrite ltb_nan_r; reflexivity.
Qed.

Example validateParameter_nan_yaw :
  validateParameter (P "Desired Yaw" "degrees" (-180)%float 180%float nan) nan = true.
Proof. reflexivity. Qed.

(** C9: for every command of [WAYPOINT_COMMANDS] and each of its 7
    parameters, the parameter's default passes [validateParameter] against
    its own bounds, the NaN defaults ("Desired Yaw", "Exit Heading")
    included. *)
Theorem WAYPOINT_COMMANDS_defaults_valid :
  forall c d i p,
    getCommandDefinition c = Some d ->
    nth_error (params d) i = Some p ->
    length (params d) = 7 /\ validateParameter p (default p) = true.
Proof.
  intros c d i p Hd Hp. split; [exact (getCommandDefinition_arity _ _ Hd)|].
  destruct c; cbn in Hd; inversion Hd; subst d;
    (do 7 (destruct i as [|i]; [cbn in Hp; inversion Hp; subst p; vm_compute; reflexivity|]));
    destruct i; discriminate Hp.
Qed.

Lemma WAYPOINT_COMMANDS_defaults_valid_witness :
  exists d p, getCommandDefinition NAV_TAKEOFF = Some d /\
    nth_error (params d) 3 = Some p /\
    length (params d) = 7 /\ validateParameter p (default p) = true.
Proof.
  do 2 eexists. split; [reflexivity|]. split; [reflexivity|].
  eapply (WAYPOINT_COMMANDS_defaults_valid NAV_TAKEOFF _ 3 _); reflexivity.
Defined.

(** ** Command Dispatcher (C3, C7) *)

Example minIntervalMs_default : minIntervalMs defaultConfig = 20.
Proof. reflexivity. Qed.

(** Decidable equality of commands; floats are compared bit for bit. *)
Definition float_eq_dec (x y : float) : {x = y} + {x <> y}.
Proof.
  destruct (PrimFloat.Leibniz.eqb x y) eqn:E.
  - left. apply FloatAxioms.Leibniz.eqb_spec. exact E.
  - right. intros H. subst.
    rewrite (proj2 (FloatAxioms.Leibniz.eqb_spec y y) eq_refl) in E. discriminate.
Defined.

Definition CommandRequest_eq_dec (a b : CommandRequest) : {a = b} + {a <> b}.
Proof.
  decide equality;
    first [apply Z.eq_dec | apply (list_eq_dec float_eq_dec) | apply MAVCmd_eq_dec].
Defined.

Definition QCmd_eq_dec (a b : QCmd) : {a = b} + {a <> b}.
Proof.
  decide equality; first [apply Nat.eq_dec | apply bool_dec | apply CommandRequest_eq_dec].
Defined.

(** Sends are newest first, each at least [m] ms after the previous one. *)
Definition spacedBy (m : nat) (a b : nat * QCmd) : Prop := fst b + m <= fst a.

(** The rate limiter's guarantee on the transport log (newest first): each
    send of a non-emergency command comes at least [m] ms after the send just
    before it. *)
Fixpoint limiterOk (m : nat) (l : list (nat * QCmd)) : Prop :=
  match l with
  | [] => True
  | (t2, c2) :: r =>
      match r with
      | [] => True
      | (t1, _) :: _ => qemergency c2 = false -> t1 + m <= t2
      end /\ limiterOk m r
  end.

(** The sends of non-emergency commands, first sends and retries alike. *)
Definition nonEmergencySends (l : list (nat * QCmd)) : list (nat * QCmd) :=
  filter (fun e => negb (qemergency (snd e))) l.

(** Everything the dispatcher holds or has disposed of: queued, awaiting
    acknowledgment, delivered, acknowledged, failed, discarded at its
    deadline, superseded, dropped by the queue-full policy. *)
Definition content (d : Disp) : list QCmd :=
  map ecmd (queue d) ++ map pcmd (pending d) ++ map snd (delivered d) ++
  map snd (acked d) ++ map snd (failed d) ++ map snd (expired d) ++
  superseded d ++ overflow d.

Definition lastSendOk (d : Disp) : Prop :=
  lastSend d = match sent d with [] => None | (t, _) :: _ => Some t end.

(** Sends still allowed for command [c]: one per copy already sent, one more
    than its retries left per queued copy, its retries left per copy awaiting
    acknowledgment. *)
Definition qbudget (c : QCmd) (q : list QEntry) : nat :=
  list_sum (map (fun e => if QCmd_eq_dec (ecmd e) c then S (eleft e) else 0) q).

Definition pbudget (c : QCmd) (ps : list PendingAck) : nat :=
  list_sum (map (fun p => if QCmd_eq_dec (pcmd p) c then eleft (pentry p) else 0) ps).

Definition sendBudget (c : QCmd) (d : Disp) : nat :=
  count_occ QCmd_eq_dec (map snd (sent d)) c + qbudget c (queue d) + pbudget c (pending d).

Lemma count_cons : forall (a : QCmd) l x,
  count_occ QCmd_eq_dec (a :: l) x = (if QCmd_eq_dec a x then 1 else 0) + count_occ QCmd_eq_dec l x.
Proof. intros a l x. cbn. destruct (QCmd_eq_dec a x); reflexivity. Qed.

Lemma pcmd_mk : forall e a b, pcmd {| pentry := e; psentAt := a; pdeadline := b |} = ecmd e.
Proof. reflexivity. Qed.

Lemma count_nil : forall x, count_occ QCmd_eq_dec [] x = 0.
Proof. reflexivity. Qed.

Ltac count_norm :=
  rewrite ?map_app in *; cbn [map] in *;
  rewrite ?count_occ_app, ?count_cons, ?count_nil in *;
  rewrite ?count_occ_app, ?count_cons, ?count_nil in *.

Lemma count_filter_split {A} (f : A -> bool) (g : A -> QCmd) : forall l x,
  count_occ QCmd_eq_dec (map g (filter f l)) x +
  count_occ QCmd_eq_dec (map g (filter (fun a => negb (f a)) l)) x =
  count_occ QCmd_eq_dec (map g l) x.
Proof.
  induction l as [|a l IH]; intros x; [reflexivity|].
  specialize (IH x). cbn [filter map].
  destruct (f a); cbn [negb map]; rewrite ?count_cons; lia.
Qed.

Lemma map_snd_pending (f : PendingAck -> nat) : forall l,
  map snd (map (fun p => (f p, pcmd p)) l) = map pcmd l.
Proof. intros l. rewrite map_map. reflexivity. Qed.

Lemma map_ecmd_retry : forall l,
  map ecmd (map (fun p => retryEntry (pentry p)) l) = map pcmd l.
Proof. intros l. rewrite map_map. reflexivity. Qed.

Lemma Forall_filter_of {A} (P : A -> Prop) (f : A -> bool) : forall l,
  Forall P l -> Forall P (filter f l).
Proof.
  intros l H. apply Forall_forall. intros x Hx. apply filter_In in Hx as [Hx _].
  rewrite Forall_forall in H. apply H; exact Hx.
Qed.

Lemma removeOldestNonCritical_perm : forall q x q',
  removeOldestNonCritical q = Some (x, q') -> Permutation q (x :: q').
Proof.
  induction q as [|c q IH]; intros x q' H; cbn in H; [discriminate|].
  destruct (qemergency (ecmd c)).
  - destruct (removeOldestNonCritical q) as [[y r]|] eqn:E; [|discriminate].
    inversion H; subst. specialize (IH _ _ eq_refl).
    eapply perm_trans; [apply perm_skip; exact IH|]. apply perm_swap.
  - inversion H; subst. reflexivity.
Qed.

Lemma removeOldestNonCritical_forall : forall (P : QEntry -> Prop) q x q',
  Forall P q -> removeOldestNonCritical q = Some (x, q') -> Forall P q'.
Proof.
  intros P q x q' Hq H. apply removeOldestNonCritical_perm in H.
  apply (Permutation_Forall H) in Hq. inversion Hq; assumption.
Qed.

(** *** Accounting *)

Lemma enqueue_content : forall cfg e d,
  Permutation (content (enqueue cfg e d)) (ecmd e :: content d).
Proof.
  intros cfg e d. unfold enqueue.
  destruct (qemergency (ecmd e)); [reflexivity|].
  cbv zeta. apply (Permutation_count_occ QCmd_eq_dec). intros y.
  destruct (_ <? _).
  - destruct (removeOldestNonCritical (queue d ++ [e])%list) as [[x q']|] eqn:E.
    + apply removeOldestNonCritical_perm, (Permutation_map ecmd) in E.
      rewrite (Permutation_count_occ QCmd_eq_dec) in E. specialize (E y).
      unfold content; cbn [queue pending delivered acked failed expired superseded overflow map] in *.
      count_norm. lia.
    + unfold content, setQueue; cbn [queue pending delivered acked failed expired superseded overflow map].
      count_norm. lia.
  - unfold content, setQueue; cbn [queue pending delivered acked failed expired superseded overflow map].
    count_norm. lia.
Qed.

Lemma transmit_content : forall cfg t e rest d,
  queue d = e :: rest ->
  Permutation (content (transmit cfg t e rest d)) (content d).
Proof.
  intros cfg t e rest d Hq.
  apply (Permutation_count_occ QCmd_eq_dec). intros x.
  pose proof (count_filter_split (fun p => keyOf (ecmd e) (pcmd p)) pcmd (pending d) x) as Hs.
  unfold transmit, content. cbv zeta. rewrite Hq.
  destruct (requiresAck cfg (reqCommand (qreq (ecmd e))));
    cbn [queue pending delivered acked failed expired superseded overflow map snd];
    count_norm; rewrite ?pcmd_mk; lia.
Qed.

Lemma sendStep_content : forall cfg t d,
  Permutation (content (sendStep cfg t d)) (content d).
Proof.
  intros cfg t d. unfold sendStep.
  destruct (queue d) as [|e rest] eqn:Hq; [reflexivity|].
  destruct (qemergency (ecmd e)); [apply transmit_content; exact Hq|].
  destruct (qdeadline (ecmd e) <? t).
  - apply (Permutation_count_occ QCmd_eq_dec). intros x.
    unfold content; cbn [queue pending delivered acked failed expired superseded overflow map snd].
    rewrite Hq. count_norm. lia.
  - destruct (lastSend d) as [l|]; [destruct (l + minIntervalMs cfg <=? t)|];
      try (apply transmit_content; exact Hq); reflexivity.
Qed.

Lemma expireAcks_content : forall t d,
  Permutation (content (expireAcks t d)) (content d).
Proof.
  intros t d. apply (Permutation_count_occ QCmd_eq_dec). intros x.
  pose proof (count_filter_split (fun p => pdeadline p <? t) pcmd (pending d) x) as H1.
  pose proof (count_filter_split (fun p => 0 <? eleft (pentry p)) pcmd
                (filter (fun p => pdeadline p <? t) (pending d)) x) as H2.
  unfold expireAcks, content. cbv zeta.
  cbn [queue pending delivered acked failed expired superseded overflow].
  rewrite map_app, map_ecmd_retry, map_app, (map_snd_pending (fun _ => t)).
  count_norm. lia.
Qed.

Lemma ackReceived_content : forall t cmd sys comp d,
  Permutation (content (ackReceived t cmd sys comp d)) (content d).
Proof.
  intros t cmd sys comp d. apply (Permutation_count_occ QCmd_eq_dec). intros x.
  pose proof (count_filter_split (fun p => sameKey cmd sys comp (pcmd p)) pcmd (pending d) x) as H1.
  unfold ackReceived, content.
  cbn [queue pending delivered acked failed expired superseded overflow].
  rewrite map_app, (map_snd_pending (fun p => t - psentAt p)).
  count_norm. lia.
Qed.

Lemma dispStep_content : forall cfg d ev,
  Permutation (content (dispStep cfg d ev))
              (match ev with Submit _ c => [c] | _ => [] end ++ content d).
Proof.
  intros cfg d [t c|t|t cmd sys comp]; cbn [dispStep app].
  - eapply perm_trans; [apply sendStep_content|]. apply enqueue_content.
  - eapply perm_trans; [apply sendStep_content|]. apply expireAcks_content.
  - apply ackReceived_content.
Qed.

Lemma submittedOf_cons : forall ev evs,
  submittedOf (ev :: evs) = (match ev with Submit _ c => [c] | _ => [] end ++ submittedOf evs)%list.
Proof. reflexivity. Qed.

Lemma submittedOf_app : forall evs1 evs2,
  submittedOf (evs1 ++ evs2) = (submittedOf evs1 ++ submittedOf evs2)%list.
Proof. intros evs1 evs2. unfold submittedOf. apply flat_map_app. Qed.

Lemma runDisp_content : forall cfg evs d,
  Permutation (content (runDisp cfg d evs)) (submittedOf evs ++ content d).
Proof.
  unfold runDisp.
  induction evs as [|ev evs IH]; intros d; cbn [fold_left]; [reflexivity|].
  rewrite submittedOf_cons, <- app_assoc.
  eapply perm_trans; [apply IH|].
  eapply perm_trans; [apply Permutation_app_head; apply dispStep_content|].
  destruct ev; cbn [app]; try reflexivity.
  symmetry. apply Permutation_middle.
Qed.

(** *** Deadlines and the overflow counter *)

Definition ExpInv (d : Disp) : Prop :=
  Forall (fun e => qdeadline (snd e) < fst e) (expired d) /\
  droppedCommands d = length (overflow d).

Lemma transmit_exp : forall cfg t e rest d,
  expired (transmit cfg t e rest d) = expired d /\
  overflow (transmit cfg t e rest d) = overflow d /\
  droppedCommands (transmit cfg t e rest d) = droppedCommands d.
Proof. intros. unfold transmit. destruct (requiresAck _ _); repeat split. Qed.

Lemma transmit_ExpInv : forall cfg t e rest d,
  ExpInv d -> ExpInv (transmit cfg t e rest d).
Proof.
  intros cfg t e rest d [He Hd]. destruct (transmit_exp cfg t e rest d) as (H1 & H2 & H3).
  split; [rewrite H1; exact He|]. rewrite H2, H3. exact Hd.
Qed.

Lemma dispStep_ExpInv : forall cfg d ev, ExpInv d -> ExpInv (dispStep cfg d ev).
Proof.
  intros cfg d ev Hinv.
  assert (Hs : forall t d, ExpInv d -> ExpInv (sendStep cfg t d)).
  { intros t d0 [He Hd]. unfold sendStep.
    destruct (queue d0) as [|e rest]; [split; assumption|].
    destruct (qemergency (ecmd e)); [apply transmit_ExpInv; split; assumption|].
    destruct (qdeadline (ecmd e) <? t) eqn:Edl.
    - split; [|exact Hd]. constructor; [|exact He]. cbn. apply Nat.ltb_lt; exact Edl.
    - destruct (lastSend d0) as [l|]; [destruct (l + minIntervalMs cfg <=? t)|];
        try (apply transmit_ExpInv; split; assumption); split; assumption. }
  destruct Hinv as [He Hd].
  destruct ev as [t c|t|t cmd sys comp]; cbn [dispStep].
  - apply Hs. unfold enqueue.
    destruct (qemergency (ecmd (mkEntry c))); [split; assumption|].
    cbv zeta. destruct (_ <? _); [destruct (removeOldestNonCritical _) as [[x q']|]|];
      split; cbn; auto.
  - apply Hs. split; assumption.
  - split; assumption.
Qed.

Lemma runDisp_ExpInv : forall cfg evs d, ExpInv d -> ExpInv (runDisp cfg d evs).
Proof.
  unfold runDisp. intros cfg evs.
  induction evs as [|ev evs IH]; intros d H; cbn [fold_left]; [exact H|].
  apply IH, dispStep_ExpInv, H.
Qed.

(** *** The transport log *)

Lemma transmit_sent : forall cfg t e rest d,
  sent (transmit cfg t e rest d) = (t, ecmd e) :: sent d /\
  lastSend (transmit cfg t e rest d) = Some t.
Proof. intros. unfold transmit. destruct (requiresAck _ _); split; reflexivity. Qed.

(** A send step leaves the transport log alone, or sends one command at
    [t]: a non-emergency one only once the minimum interval has elapsed. *)
Lemma sendStep_sent : forall cfg t d,
  (sent (sendStep cfg t d) = sent d /\ lastSend (sendStep cfg t d) = lastSend d) \/
  (exists c, sent (sendStep cfg t d) = (t, c) :: sent d /\
     lastSend (sendStep cfg t d) = Some t /\
     (qemergency c = false -> forall l, lastSend d = Some l -> l + minIntervalMs cfg <= t)).
Proof.
  intros cfg t d. unfold sendStep.
  destruct (queue d) as [|e rest]; [left; split; reflexivity|].
  destruct (transmit_sent cfg t e rest d) as [Hs Hl].
  destruct (qemergency (ecmd e)) eqn:Em.
  - right. exists (ecmd e). rewrite Hs, Hl. split; [reflexivity|]. split; [reflexivity|].
    intros H. congruence.
  - destruct (qdeadline (ecmd e) <? t); [left; split; reflexivity|].
    destruct (lastSend d) as [l|] eqn:El.
    + destruct (l + minIntervalMs cfg <=? t) eqn:Ele; [|left; rewrite El; split; reflexivity].
      right. exists (ecmd e). rewrite Hs, Hl. split; [reflexivity|]. split; [reflexivity|].
      intros _ l' Hl'. inversion Hl'; subst. apply Nat.leb_le; exact Ele.
    + right. exists (ecmd e). rewrite Hs, Hl. split; [reflexivity|]. split; [reflexivity|].
      intros _ l' Hl'. discriminate.
Qed.

Lemma enqueue_sent : forall cfg e d,
  sent (enqueue cfg e d) = sent d /\ lastSend (enqueue cfg e d) = lastSend d.
Proof.
  intros cfg e d. unfold enqueue.
  destruct (qemergency (ecmd e)); [split; reflexivity|].
  cbv zeta. destruct (_ <? _); [destruct (removeOldestNonCritical _) as [[x q']|]|];
    split; reflexivity.
Qed.

Lemma dispStep_sent : forall cfg d ev,
  (sent (dispStep cfg d ev) = sent d /\ lastSend (dispStep cfg d ev) = lastSend d) \/
  (exists c, sent (dispStep cfg d ev) = (evTime ev, c) :: sent d /\
     lastSend (dispStep cfg d ev) = Some (evTime ev) /\
     (qemergency c = false -> forall l, lastSend d = Some l -> l + minIntervalMs cfg <= evTime ev)).
Proof.
  intros cfg d [t c|t|t cmd sys comp]; cbn [dispStep evTime].
  - destruct (enqueue_sent cfg (mkEntry c) d) as [H1 H2].
    rewrite <- H1, <- H2. apply sendStep_sent.
  - apply (sendStep_sent cfg t (expireAcks t d)).
  - left. split; reflexivity.
Qed.

(** Invariant of every run: the rate limiter's guarantee, and [lastSend] is
    the time of the newest send. *)
Definition LimInv (m : nat) (d : Disp) : Prop := limiterOk m (sent d) /\ lastSendOk d.

Lemma dispStep_LimInv : forall cfg d ev,
  LimInv (minIntervalMs cfg) d -> LimInv (minIntervalMs cfg) (dispStep cfg d ev).
Proof.
  intros cfg d ev [Hlim Hl].
  destruct (dispStep_sent cfg d ev) as [[H1 H2] | (c & H1 & H2 & H3)].
  - split; [rewrite H1; exact Hlim|]. unfold lastSendOk. rewrite H1, H2. exact Hl.
  - split; [|unfold lastSendOk; rewrite H1, H2; reflexivity].
    rewrite H1. unfold lastSendOk in Hl. cbn [limiterOk]. split; [|exact Hlim].
    destruct (sent d) as [|[t1 c1] r]; [exact I|].
    intros Hc. apply H3; assumption.
Qed.

Lemma runDisp_LimInv : forall cfg evs d,
  LimInv (minIntervalMs cfg) d -> LimInv (minIntervalMs cfg) (runDisp cfg d evs).
Proof.
  unfold runDisp. intros cfg evs.
  induction evs as [|ev evs IH]; intros d H; cbn [fold_left]; [exact H|].
  apply IH, dispStep_LimInv, H.
Qed.

(** With nondecreasing event times, the log is sorted by time and the
    non-emergency sends are pairwise at least [m] ms apart. *)
Definition MonoInv (m now : nat) (d : Disp) : Prop :=
  lastSendOk d /\
  StronglySorted (fun a b => fst b <= fst a) (sent d) /\
  Forall (fun e => fst e <= now) (sent d) /\
  StronglySorted (spacedBy m) (nonEmergencySends (sent d)).

Lemma dispStep_MonoInv : forall cfg now d ev,
  MonoInv (minIntervalMs cfg) now d -> now <= evTime ev ->
  MonoInv (minIntervalMs cfg) (evTime ev) (dispStep cfg d ev).
Proof.
  intros cfg now d ev (Hl & Hso & Hle & Hsp) Ht.
  assert (Hle' : Forall (fun e => fst e <= evTime ev) (sent d)).
  { eapply Forall_impl; [|exact Hle]. intros e He; cbn in He; lia. }
  destruct (dispStep_sent cfg d ev) as [[H1 H2] | (c & H1 & H2 & H3)].
  - unfold MonoInv, lastSendOk. rewrite H1, H2. auto.
  - unfold MonoInv, lastSendOk. rewrite H1, H2.
    split; [reflexivity|]. split; [constructor; assumption|].
    split; [constructor; [cbn; lia|exact Hle']|].
    unfold nonEmergencySends. cbn [filter snd]. fold (nonEmergencySends (sent d)).
    destruct (qemergency c) eqn:Ec; cbn [negb]; [exact Hsp|].
    constructor; [exact Hsp|].
    apply Forall_forall. intros [tb cb] Hb. unfold spacedBy. cbn [fst].
    apply filter_In in Hb as [Hb _].
    unfold lastSendOk in Hl.
    destruct (sent d) as [|[l cl] r] eqn:Es; [destruct Hb|].
    specialize (H3 eq_refl l Hl).
    assert (tb <= l).
    { destruct Hb as [Hb|Hb]; [inversion Hb; lia|].
      inversion Hso as [|? ? _ Hf]; subst. rewrite Forall_forall in Hf.
      apply (Hf (tb, cb)); exact Hb. }
    lia.
Qed.

Lemma runDisp_MonoInv : forall cfg evs d now,
  MonoInv (minIntervalMs cfg) now d ->
  StronglySorted le (map evTime evs) ->
  Forall (fun ev => now <= evTime ev) evs ->
  exists now', MonoInv (minIntervalMs cfg) now' (runDisp cfg d evs).
Proof.
  unfold runDisp. intros cfg evs.
  induction evs as [|ev evs IH]; intros d now H Hs Hn; cbn [fold_left]; [exists now; exact H|].
  inversion Hs as [|? ? Hs' Hf]; subst. inversion Hn as [|? ? Hn0 _]; subst.
  apply (IH _ (evTime ev)); [apply (dispStep_MonoInv cfg now); assumption|exact Hs'|].
  apply Forall_forall. intros e He. rewrite Forall_forall in Hf.
  apply Hf. apply in_map. exact He.
Qed.

(** A property of commands holds of everything queued, awaiting
    acknowledgment or sent when it holds of every submitted command. *)
Definition PInv (P : QCmd -> Prop) (d : Disp) : Prop :=
  Forall (fun e => P (ecmd e)) (queue d) /\
  Forall (fun p => P (pcmd p)) (pending d) /\
  Forall (fun e => P (snd e)) (sent d).

Lemma sendStep_PInv : forall (P : QCmd -> Prop) cfg t d, PInv P d -> PInv P (sendStep cfg t d).
Proof.
  intros P cfg t d Hinv. pose proof Hinv as (Hq & Hp & Hs). unfold sendStep.
  destruct (queue d) as [|e rest] eqn:Eq; [exact Hinv|].
  inversion Hq as [|? ? He Hrest]; subst.
  assert (Htx : PInv P (transmit cfg t e rest d)).
  { unfold transmit, PInv. cbv zeta.
    destruct (requiresAck _ _); cbn [queue pending sent];
      (split; [exact Hrest|]); (split; [|constructor; assumption]);
      [constructor; [exact He|apply Forall_filter_of; exact Hp]|exact Hp]. }
  destruct (qemergency (ecmd e)); [exact Htx|].
  destruct (qdeadline (ecmd e) <? t).
  - split; [exact Hrest|]. split; assumption.
  - destruct (lastSend d) as [l|]; [destruct (l + minIntervalMs cfg <=? t)|];
      first [exact Htx | exact Hinv].
Qed.

Lemma dispStep_PInv : forall (P : QCmd -> Prop) cfg d ev,
  (forall t c, ev = Submit t c -> P c) -> PInv P d -> PInv P (dispStep cfg d ev).
Proof.
  intros P cfg d ev HP Hinv. pose proof Hinv as (Hq & Hp & Hs).
  destruct ev as [t c|t|t cmd sys comp]; cbn [dispStep]; apply sendStep_PInv || idtac.
  - specialize (HP t c eq_refl).
    assert (Hq' : Forall (fun e => P (ecmd e)) (queue d ++ [mkEntry c])%list).
    { apply Forall_app; split; [exact Hq|]. constructor; [exact HP|constructor]. }
    unfold enqueue.
    destruct (qemergency (ecmd (mkEntry c))); [split; [constructor; assumption|split; assumption]|].
    cbv zeta. destruct (_ <? _).
    + destruct (removeOldestNonCritical _) as [[x q']|] eqn:E.
      * split; [exact (removeOldestNonCritical_forall _ _ _ _ Hq' E)|split; assumption].
      * split; [exact Hq'|split; assumption].
    + split; [exact Hq'|split; assumption].
  - unfold expireAcks, PInv. cbv zeta. cbn [queue pending sent].
    split; [|split; [apply Forall_filter_of; exact Hp|exact Hs]].
    apply Forall_app. split; [|exact Hq].
    apply Forall_map. apply Forall_filter_of, Forall_filter_of. exact Hp.
  - unfold ackReceived, PInv. cbn [queue pending sent].
    split; [exact Hq|]. split; [apply Forall_filter_of; exact Hp|exact Hs].
Qed.

Lemma runDisp_PInv : forall (P : QCmd -> Prop) cfg evs d,
  (forall t c, In (Submit t c) evs -> P c) -> PInv P d -> PInv P (runDisp cfg d evs).
Proof.
  unfold runDisp. intros P cfg evs.
  induction evs as [|ev evs IH]; intros d HP H; cbn [fold_left]; [exact H|].
  apply IH; [intros t c Hin; apply (HP t c); right; exact Hin|].
  apply dispStep_PInv; [|exact H].
  intros t c ->. apply (HP t c). left. reflexivity.
Qed.

Lemma limiter_all_spaced : forall m l,
  limiterOk m l -> Forall (fun e => qemergency (snd e) = false) l ->
  StronglySorted (spacedBy m) l.
Proof.
  intros m. induction l as [|[t2 c2] r IH]; intros Hlim Hne; [constructor|].
  cbn [limiterOk] in Hlim. destruct Hlim as [Hhd Hlim].
  inversion Hne as [|? ? Hc2 Hne']; subst.
  specialize (IH Hlim Hne'). constructor; [exact IH|].
  destruct r as [|[t1 c1] r']; [constructor|].
  specialize (Hhd Hc2).
  inversion IH as [|? ? _ Hf]; subst.
  constructor; [unfold spacedBy; cbn; lia|].
  eapply Forall_impl; [|exact Hf]. intros [tb cb]; unfold spacedBy; cbn; lia.
Qed.

Lemma StronglySorted_filter {A} (R : A -> A -> Prop) (f : A -> bool) : forall l,
  StronglySorted R l -> StronglySorted R (filter f l).
Proof.
  induction l as [|x l IH]; intros H; cbn; [constructor|].
  inversion H as [|? ? Hl Hf]; subst.
  destruct (f x); [|apply IH; exact Hl].
  constructor; [apply IH; exact Hl|].
  apply Forall_forall. intros y Hy. apply filter_In in Hy as [Hy _].
  rewrite Forall_forall in Hf. apply Hf; exact Hy.
Qed.

Lemma spaced_head_bound : forall m a x l,
  StronglySorted (spacedBy m) (x :: l) ->
  Forall (fun e => a <= fst e) (x :: l) ->
  a + length l * m <= fst x.
Proof.
  intros m a x l. revert x.
  induction l as [|y l IH]; intros x Hs Ha; cbn.
  - inversion Ha; subst; lia.
  - inversion Hs as [|? ? Hs' Hf]; subst. inversion Hf as [|? ? Hxy _]; subst.
    inversion Ha as [|? ? _ Ha']; subst.
    specialize (IH y Hs' Ha'). unfold spacedBy in Hxy. lia.
Qed.

Lemma spaced_window : forall m W a l,
  0 < m ->
  StronglySorted (spacedBy m) l ->
  Forall (fun e => a <= fst e /\ fst e < a + W) l ->
  length l * m < W + m.
Proof.
  intros m W a l Hm Hs Hw. destruct l as [|x l]; cbn; [lia|].
  assert (Ha : Forall (fun e => a <= fst e) (x :: l)).
  { eapply Forall_impl; [|exact Hw]. intros e [He _]; exact He. }
  pose proof (spaced_head_bound m a x l Hs Ha) as Hb.
  inversion Hw as [|? ? [_ Hx] _]; subst. lia.
Qed.

Lemma minIntervalMs_spec : forall cfg, 0 < maxCommandRateHz cfg ->
  0 < minIntervalMs cfg /\ 1000 <= maxCommandRateHz cfg * minIntervalMs cfg.
Proof.
  intros cfg Hr. unfold minIntervalMs. set (r := maxCommandRateHz cfg) in *.
  pose proof (Nat.div_mod (1000 + r - 1) r ltac:(lia)) as Hdm.
  pose proof (Nat.mod_upper_bound (1000 + r - 1) r ltac:(lia)) as Hmb.
  split; [|nia].
  apply Nat.div_str_pos. lia.
Qed.

Lemma window_count : forall cfg l a,
  0 < maxCommandRateHz cfg ->
  StronglySorted (spacedBy (minIntervalMs cfg)) l ->
  length (filter (fun e => (a <=? fst e) && (fst e <? a + 1000)) l) <= maxCommandRateHz cfg.
Proof.
  intros cfg l a Hr Hs.
  destruct (minIntervalMs_spec cfg Hr) as [Hm Hrm].
  set (f := fun e : nat * QCmd => (a <=? fst e) && (fst e <? a + 1000)).
  assert (Hw : Forall (fun e => a <= fst e /\ fst e < a + 1000) (filter f l)).
  { apply Forall_forall. intros e He. apply filter_In in He as [_ He].
    unfold f in He. apply andb_true_iff in He as [H1 H2].
    apply Nat.leb_le in H1. apply Nat.ltb_lt in H2. lia. }
  pose proof (spaced_window _ 1000 a _ Hm (StronglySorted_filter _ f l Hs) Hw) as Hn.
  nia.
Qed.

(** *** The send budget of a command *)

Lemma list_sum_cons : forall x l, list_sum (x :: l) = x + list_sum l.
Proof. reflexivity. Qed.

Lemma qbudget_app : forall c q1 q2, qbudget c (q1 ++ q2) = qbudget c q1 + qbudget c q2.
Proof. intros c q1 q2. unfold qbudget. rewrite map_app. apply list_sum_app. Qed.

Lemma pbudget_filter_split : forall c (f : PendingAck -> bool) ps,
  pbudget c (filter f ps) + pbudget c (filter (fun p => negb (f p)) ps) = pbudget c ps.
Proof.
  intros c f. induction ps as [|p ps IH]; [reflexivity|].
  unfold pbudget in *. cbn [filter].
  destruct (f p); cbn [negb map]; rewrite ?list_sum_cons; lia.
Qed.

Lemma pbudget_filter_le : forall c (f : PendingAck -> bool) ps,
  pbudget c (filter f ps) <= pbudget c ps.
Proof. intros c f ps. pose proof (pbudget_filter_split c f ps). lia. Qed.

Lemma removeOldestNonCritical_qbudget : forall c q x q',
  removeOldestNonCritical q = Some (x, q') -> qbudget c q = qbudget c (x :: q').
Proof.
  intros c. induction q as [|e q IH]; intros x q' H; cbn in H; [discriminate|].
  destruct (qemergency (ecmd e)).
  - destruct (removeOldestNonCritical q) as [[y r]|] eqn:E; [|discriminate].
    inversion H; subst. specialize (IH _ _ eq_refl).
    unfold qbudget in *. cbn [map] in *. rewrite ?list_sum_cons in *. lia.
  - inversion H; subst. reflexivity.
Qed.

Lemma enqueue_budget : forall cfg c e d,
  sendBudget c (enqueue cfg e d) <=
    sendBudget c d + (if QCmd_eq_dec (ecmd e) c then S (eleft e) else 0).
Proof.
  intros cfg c e d. unfold enqueue, sendBudget.
  destruct (qemergency (ecmd e)).
  - cbn [setQueue queue pending sent]. unfold qbudget. cbn [map]. rewrite list_sum_cons. fold (qbudget c (queue d)). lia.
  - cbv zeta.
    assert (Happ : qbudget c (queue d ++ [e])%list =
                   qbudget c (queue d) + (if QCmd_eq_dec (ecmd e) c then S (eleft e) else 0)).
    { rewrite qbudget_app. unfold qbudget at 2. cbn. lia. }
    destruct (_ <? _).
    + destruct (removeOldestNonCritical (queue d ++ [e])%list) as [[x q']|] eqn:E.
      * apply (removeOldestNonCritical_qbudget c) in E.
        cbn [queue pending sent]. unfold qbudget in E at 2. cbn [map] in E. rewrite list_sum_cons in E.
        fold (qbudget c q') in E. lia.
      * cbn [setQueue queue pending sent]. lia.
    + cbn [setQueue queue pending sent]. lia.
Qed.

Lemma transmit_budget : forall cfg t c e rest d,
  queue d = e :: rest -> sendBudget c (transmit cfg t e rest d) <= sendBudget c d.
Proof.
  intros cfg t c e rest d Hq. unfold sendBudget. rewrite Hq.
  destruct (transmit_sent cfg t e rest d) as [Hs _]. rewrite Hs. cbn [map].
  rewrite count_cons.
  assert (Hqe : qbudget c (e :: rest) =
                (if QCmd_eq_dec (ecmd e) c then S (eleft e) else 0) + qbudget c rest)
    by reflexivity.
  rewrite Hqe.
  unfold transmit. cbv zeta.
  destruct (requiresAck _ _); cbn [queue pending].
  - pose proof (pbudget_filter_le c (fun p => negb (keyOf (ecmd e) (pcmd p))) (pending d)).
    unfold pbudget at 1. cbn [map snd]. rewrite list_sum_cons, pcmd_mk.
    fold (pbudget c (filter (fun p => negb (keyOf (ecmd e) (pcmd p))) (pending d))).
    cbn [pentry]. destruct (QCmd_eq_dec (ecmd e) c); lia.
  - cbn [snd]. destruct (QCmd_eq_dec (ecmd e) c); lia.
Qed.

Lemma sendStep_budget : forall cfg t c d, sendBudget c (sendStep cfg t d) <= sendBudget c d.
Proof.
  intros cfg t c d. unfold sendStep.
  destruct (queue d) as [|e rest] eqn:Hq; [lia|].
  destruct (qemergency (ecmd e)); [apply transmit_budget; exact Hq|].
  destruct (qdeadline (ecmd e) <? t).
  - unfold sendBudget. cbn [queue pending sent]. rewrite Hq.
    unfold qbudget at 2. cbn [map]. rewrite list_sum_cons. fold (qbudget c rest). lia.
  - destruct (lastSend d) as [l|]; [destruct (l + minIntervalMs cfg <=? t)|];
      first [apply transmit_budget; exact Hq | lia].
Qed.

Lemma retry_qbudget : forall c ps,
  qbudget c (map (fun p => retryEntry (pentry p)) (filter (fun p => 0 <? eleft (pentry p)) ps)) =
  pbudget c (filter (fun p => 0 <? eleft (pentry p)) ps).
Proof.
  intros c. induction ps as [|p ps IH]; [reflexivity|].
  cbn [filter]. destruct (0 <? eleft (pentry p)) eqn:E; [|exact IH].
  apply Nat.ltb_lt in E.
  unfold qbudget, pbudget in *. cbn [map retryEntry ecmd eleft] in *.
  rewrite !list_sum_cons. change (pcmd p) with (ecmd (pentry p)).
  destruct (QCmd_eq_dec (ecmd (pentry p)) c); lia.
Qed.

Lemma expireAcks_budget : forall t c d, sendBudget c (expireAcks t d) <= sendBudget c d.
Proof.
  intros t c d. unfold sendBudget, expireAcks. cbv zeta. cbn [queue pending sent].
  rewrite qbudget_app, retry_qbudget.
  set (due := filter (fun p => pdeadline p <? t) (pending d)).
  pose proof (pbudget_filter_split c (fun p => pdeadline p <? t) (pending d)) as H1.
  pose proof (pbudget_filter_le c (fun p => 0 <? eleft (pentry p)) due) as H2.
  fold due in H1. lia.
Qed.

Lemma dispStep_budget : forall cfg c d ev,
  sendBudget c (dispStep cfg d ev) <=
    sendBudget c d +
    match ev with Submit _ x => if QCmd_eq_dec x c then S (qretries c) else 0 | _ => 0 end.
Proof.
  intros cfg c d [t x|t|t cmd sys comp]; cbn [dispStep].
  - eapply Nat.le_trans; [apply sendStep_budget|].
    eapply Nat.le_trans; [apply enqueue_budget|]. cbn [ecmd eleft mkEntry].
    destruct (QCmd_eq_dec x c); [subst|]; lia.
  - eapply Nat.le_trans; [apply sendStep_budget|].
    pose proof (expireAcks_budget t c d). lia.
  - unfold sendBudget, ackReceived. cbn [queue pending sent].
    pose proof (pbudget_filter_le c (fun p => negb (sameKey cmd sys comp (pcmd p))) (pending d)).
    lia.
Qed.

Lemma runDisp_budget : forall cfg c evs d,
  sendBudget c (runDisp cfg d evs) <=
    sendBudget c d + S (qretries c) * count_occ QCmd_eq_dec (submittedOf evs) c.
Proof.
  unfold runDisp. intros cfg c evs.
  induction evs as [|ev evs IH]; intros d; cbn [fold_left]; [cbn; lia|].
  eapply Nat.le_trans; [apply IH|].
  pose proof (dispStep_budget cfg c d ev) as H.
  rewrite submittedOf_cons, count_occ_app.
  destruct ev as [t x|t|t cmd sys comp]; cbn [app] in *; [rewrite count_cons, count_nil|nia..].
  destruct (QCmd_eq_dec x c); nia.
Qed.

(** *** Concrete runs *)

Example rate_limiter_holds_early_command :
  map fst (sent (runDisp defaultConfig emptyDisp
    [Submit 0 sampleCmd; Tick 0; Submit 5 sampleCmd; Tick 5; Tick 19])) = [0] /\
  length (queue (runDisp defaultConfig emptyDisp
    [Submit 0 sampleCmd; Tick 0; Submit 5 sampleCmd; Tick 5; Tick 19])) = 1 /\
  map fst (sent (runDisp defaultConfig emptyDisp
    [Submit 0 sampleCmd; Tick 0; Submit 5 sampleCmd; Tick 5; Tick 20])) = [20; 0].
Proof. vm_compute. auto. Qed.

(** A command whose acknowledgment never comes is sent once and retried
    three times (every 100 ms ack deadline passing), then reported in one
    [commandFailed] event, its PendingAck removed. *)
Example command_fails_after_retry_budget :
  let cfg := {| maxCommandRateHz := 50; queueCapacity := 64; maxRetries := 3;
                ackTimeoutMs := 100; requiresAck := fun _ => true |} in
  let c := {| qreq := sampleWaypointTooHigh; qemergency := false; qdeadline := 4000;
              qretries := 3 |} in
  let d := runDisp cfg emptyDisp [Submit 0 c; Tick 101; Tick 202; Tick 303; Tick 404; Tick 505] in
  map fst (sent d) = [303; 202; 101; 0] /\ failed d = [(404, c)] /\ pending d = [] /\
  queue d = [].
Proof. vm_compute. auto. Qed.

(** An acknowledged command is not retried. *)
Example acked_command_not_retried :
  let c := emergencyStop 0 1 1 in
  let d := runDisp defaultConfig emptyDisp
             [Submit 0 c; AckRx 12 COMPONENT_ARM_DISARM 1 1; Tick 51; Tick 102] in
  map fst (sent d) = [0] /\ acked d = [(12, c)] /\ failed d = [] /\ pending d = [].
Proof. vm_compute. auto. Qed.

(** An unacknowledged emergency stop is sent at once, retried once when its
    50 ms deadline has passed, then reported failed. *)
Example emergency_stop_retried_once :
  let c := emergencyStop 0 1 1 in
  let d := runDisp defaultConfig emptyDisp [Submit 0 c; Tick 51; Tick 102; Tick 200] in
  map fst (sent d) = [51; 0] /\ failed d = [(102, c)] /\ pending d = [].
Proof. vm_compute. auto. Qed.

Example emergency_stop_right_after_send :
  map fst (sent (runDisp defaultConfig emptyDisp
    [Submit 0 sampleCmd; Tick 0; Submit 1 (emergencyStop 1 1 1)])) = [1; 0].
Proof. vm_compute. reflexivity. Qed.

(** A run mixing commands, an emergency stop and an acknowledgment. *)
Definition sampleRun : list DispEvent :=
  [Submit 0 sampleCmd; Submit 5 sampleCmd; Submit 6 (emergencyStop 6 1 1); Tick 20;
   Tick 26; AckRx 30 COMPONENT_ARM_DISARM 1 1; Tick 40].

(** *** Claims *)

(** C3 (counterexample): the claim fails for runs with an emergency stop,
    which bypasses the rate limiter: a command sent at 0 ms and an emergency
    stop submitted at 5 ms go out 5 ms apart, less than the 20 ms interval;
    and it fails for a full queue: of 66 commands submitted at once, the first
    is sent and the next 64 fill the queue, so the 66th makes the oldest
    queued one be dropped (and counted) although its deadline has not
    passed. *)
Lemma dispatcher_rate_limit_counterexample :
  (map fst (sent (runDisp defaultConfig emptyDisp
     [Submit 0 sampleCmd; Tick 0; Submit 5 (emergencyStop 5 1 1)])) = [5; 0] /\
   5 < 0 + minIntervalMs defaultConfig) /\
  (overflow (runDisp defaultConfig emptyDisp (repeat (Submit 0 sampleCmd) 66)) = [sampleCmd] /\
   droppedCommands (runDisp defaultConfig emptyDisp (repeat (Submit 0 sampleCmd) 66)) = 1 /\
   0 < qdeadline sampleCmd).
Proof. vm_compute. repeat split; lia. Qed.

(** C3 (amended): in every run of the dispatcher (with [maxCommandRateHz]
    > 0), each send of a non-emergency command, first send or retry, comes at
    least the minimum interval (20 ms at 50 Hz) after the send before it;
    when event times do not decrease, the non-emergency sends are pairwise
    that far apart and every window [[a, a + 1000)] ms holds at most
    [maxCommandRateHz] of them; in runs without emergency stops this holds of
    all sends. Every submitted command is, exactly once, still queued,
    awaiting its acknowledgment, delivered, acknowledged, failed after its
    retry budget, discarded after its deadline had passed, superseded, or
    dropped by the full-queue policy and counted in [droppedCommands]. *)
Theorem dispatcher_rate_limit :
  forall cfg evs,
    0 < maxCommandRateHz cfg ->
    let d := runDisp cfg emptyDisp evs in
    limiterOk (minIntervalMs cfg) (sent d) /\
    (Sorted le (map evTime evs) ->
       StronglySorted (spacedBy (minIntervalMs cfg)) (nonEmergencySends (sent d)) /\
       (forall a, length (filter (fun e => (a <=? fst e) && (fst e <? a + 1000))
                                 (nonEmergencySends (sent d))) <= maxCommandRateHz cfg)) /\
    ((forall t c, In (Submit t c) evs -> qemergency c = false) ->
       StronglySorted (spacedBy (minIntervalMs cfg)) (sent d) /\
       (forall a, length (filter (fun e => (a <=? fst e) && (fst e <? a + 1000)) (sent d))
                  <= maxCommandRateHz cfg)) /\
    Permutation (submittedOf evs) (content d) /\
    Forall (fun e => qdeadline (snd e) < fst e) (expired d) /\
    droppedCommands d = length (overflow d).
Proof.
  intros cfg evs Hr d.
  destruct (runDisp_LimInv cfg evs emptyDisp (conj I eq_refl)) as [Hlim _].
  destruct (runDisp_ExpInv cfg evs emptyDisp (conj (Forall_nil _) eq_refl)) as [He Hd].
  split; [exact Hlim|]. split; [|split; [|split; [|split; assumption]]].
  - intros Hsorted.
    apply (Sorted_StronglySorted Nat.le_trans) in Hsorted.
    assert (H0 : MonoInv (minIntervalMs cfg) 0 emptyDisp).
    { split; [reflexivity|]. split; [constructor|]. split; constructor. }
    assert (Hn : Forall (fun ev => 0 <= evTime ev) evs).
    { apply Forall_forall. intros ev _. lia. }
    destruct (runDisp_MonoInv cfg evs emptyDisp 0 H0 Hsorted Hn) as (now & _ & _ & _ & Hsp).
    split; [exact Hsp|]. intros a. apply window_count; assumption.
  - intros Hne.
    assert (H0 : PInv (fun c => qemergency c = false) emptyDisp) by (repeat split; constructor).
    destruct (runDisp_PInv _ cfg evs emptyDisp Hne H0) as (_ & _ & Hs).
    assert (Hsp : StronglySorted (spacedBy (minIntervalMs cfg)) (sent d))
      by (apply limiter_all_spaced; assumption).
    split; [exact Hsp|]. intros a. apply window_count; assumption.
  - pose proof (runDisp_content cfg evs emptyDisp) as Hp.
    change (content emptyDisp) with (@nil QCmd) in Hp.
    rewrite app_nil_r in Hp. symmetry. exact Hp.
Qed.

Lemma dispatcher_rate_limit_witness :
  let d := runDisp defaultConfig emptyDisp sampleRun in
  limiterOk (minIntervalMs defaultConfig) (sent d) /\
  (Sorted le (map evTime sampleRun) ->
     StronglySorted (spacedBy (minIntervalMs defaultConfig)) (nonEmergencySends (sent d)) /\
     (forall a, length (filter (fun e => (a <=? fst e) && (fst e <? a + 1000))
                               (nonEmergencySends (sent d))) <= maxCommandRateHz defaultConfig)) /\
  ((forall t c, In (Submit t c) sampleRun -> qemergency c = false) ->
     StronglySorted (spacedBy (minIntervalMs defaultConfig)) (sent d) /\
     (forall a, length (filter (fun e => (a <=? fst e) && (fst e <? a + 1000)) (sent d))
                <= maxCommandRateHz defaultConfig)) /\
  Permutation (submittedOf sampleRun) (content d) /\
  Forall (fun e => qdeadline (snd e) < fst e) (expired d) /\
  droppedCommands d = length (overflow d).
Proof.
  apply (dispatcher_rate_limit defaultConfig sampleRun).
  apply Nat.ltb_lt. vm_compute. reflexivity.
Defined.

(** C7: an operator's emergency stop submitted at time [t], after any run
    [pre] (whatever its queue and however recent its last send: the rate
    limiter is bypassed), is put on the transport at [t] itself, so its
    dispatch time is 0 ms, under the 50 ms bound, and the rest of the queue
    is left as it was; it awaits its acknowledgment with the 50 ms emergency
    deadline; and its retry budget is a single retry: over the whole run,
    whatever follows, it is sent at most twice. *)
Theorem emergency_stop_dispatch :
  forall cfg pre t sys comp post,
    ~ In (emergencyStop t sys comp) (submittedOf (pre ++ post)) ->
    let d0 := runDisp cfg emptyDisp pre in
    let d1 := dispStep cfg d0 (Submit t (emergencyStop t sys comp)) in
    sent d1 = (t, emergencyStop t sys comp) :: sent d0 /\
    queue d1 = queue d0 /\
    (requiresAck cfg COMPONENT_ARM_DISARM = true ->
       In {| pentry := mkEntry (emergencyStop t sys comp); psentAt := t; pdeadline := t + 50 |}
          (pending d1)) /\
    qretries (emergencyStop t sys comp) = 1 /\
    count_occ QCmd_eq_dec (map snd (sent (runDisp cfg d1 post))) (emergencyStop t sys comp) <= 2.
Proof.
  intros cfg pre t sys comp post Hnin d0 d1.
  set (c := emergencyStop t sys comp) in *.
  assert (Hd1 : d1 = transmit cfg t (mkEntry c) (queue d0) (setQueue (mkEntry c :: queue d0) d0))
    by reflexivity.
  destruct (transmit_sent cfg t (mkEntry c) (queue d0) (setQueue (mkEntry c :: queue d0) d0))
    as [Hs _].
  split; [rewrite Hd1, Hs; reflexivity|].
  split; [rewrite Hd1; unfold transmit; destruct (requiresAck _ _); reflexivity|].
  split.
  { intros Hack. rewrite Hd1. unfold transmit. cbv zeta.
    change (reqCommand (qreq (ecmd (mkEntry c)))) with COMPONENT_ARM_DISARM.
    rewrite Hack. left. reflexivity. }
  split; [reflexivity|].
  assert (Hrun : runDisp cfg d1 post = runDisp cfg emptyDisp (pre ++ Submit t c :: post)).
  { unfold runDisp, d1, d0. rewrite fold_left_app. reflexivity. }
  pose proof (runDisp_budget cfg c (pre ++ Submit t c :: post) emptyDisp) as Hb.
  rewrite <- Hrun in Hb.
  rewrite submittedOf_app, submittedOf_cons, count_occ_app, count_occ_app in Hb.
  rewrite submittedOf_app, in_app_iff in Hnin.
  rewrite (proj1 (count_occ_not_In QCmd_eq_dec _ c)) in Hb by (intros H; apply Hnin; left; exact H).
  rewrite (proj1 (count_occ_not_In QCmd_eq_dec (submittedOf post) c)) in Hb
    by (intros H; apply Hnin; right; exact H).
  cbn [app] in Hb. rewrite count_cons, count_nil in Hb.
  destruct (QCmd_eq_dec c c) as [_|Hneq]; [|contradiction].
  change (sendBudget c emptyDisp) with 0 in Hb.
  change (qretries c) with 1 in Hb.
  unfold sendBudget in Hb. lia.
Qed.

Lemma emergency_stop_dispatch_witness :
  let d0 := runDisp defaultConfig emptyDisp [Submit 0 sampleCmd] in
  let d1 := dispStep defaultConfig d0 (Submit 1 (emergencyStop 1 1 1)) in
  sent d1 = (1, emergencyStop 1 1 1) :: sent d0 /\
  queue d1 = queue d0 /\
  (requiresAck defaultConfig COMPONENT_ARM_DISARM = true ->
     In {| pentry := mkEntry (emergencyStop 1 1 1); psentAt := 1; pdeadline := 1 + 50 |}
        (pending d1)) /\
  qretries (emergencyStop 1 1 1) = 1 /\
  count_occ QCmd_eq_dec (map snd (sent (runDisp defaultConfig d1 [Tick 52; Tick 103])))
    (emergencyStop 1 1 1) <= 2.
Proof.
  apply (emergency_stop_dispatch defaultConfig [Submit 0 sampleCmd] 1 1 1 [Tick 52; Tick 103]).
  cbn. intros [H|[]]. apply (f_equal qemergency) in H. discriminate H.
Defined.

(** ** Safety Monitor (C2) *)











(** ** The [JSON.parse] override *)

Lemma JSON_parse_cases : forall orig this text reviver,
  JSON_parse orig this text reviver =
    if String.eqb (typeof text) "string" then
      match orig this text reviver with
      | Normal v => (Normal v, [])
      | Throw _ => (Normal JSNull, ["JSON.parse error (possibly browser extension):"%string])
      end
    else (Normal text, [String.append "JSON.parse called with non-string: " (typeof text)]).
Proof. intros. unfold JSON_parse. destruct (String.eqb (typeof text) "string"); reflexivity. Qed.

(** C10: whatever the saved original parser does, the installed [JSON.parse]
    never completes by throwing; on an argument whose [typeof] is not
    [string] it returns that argument unchanged, after one warning; on a
    string the original parser rejects (throws on), it returns [null]. *)
Theorem JSON_parse_never_throws : forall originalJSONParse this text reviver,
  (exists v, fst (JSON_parse originalJSONParse this text reviver) = Normal v) /\
  (typeof text <> "string"%string ->
     JSON_parse originalJSONParse this text reviver =
       (Normal text, [String.append "JSON.parse called with non-string: " (typeof text)])) /\
  (forall err, typeof text = "string"%string ->
     originalJSONParse this text reviver = Throw err ->
     fst (JSON_parse originalJSONParse this text reviver) = Normal JSNull).
Proof.
  intros orig this text reviver. rewrite JSON_parse_cases.
  destruct (String.eqb (typeof text) "string") eqn:Hs.
  - apply String.eqb_eq in Hs.
    split; [|split].
    + destruct (orig this text reviver); eexists; reflexivity.
    + intros Hn. contradiction.
    + intros err _ Horig. rewrite Horig. reflexivity.
  - apply String.eqb_neq in Hs.
    split; [|split].
    + eexists; reflexivity.
    + intros _. reflexivity.
    + intros err Hstr. contradiction.
Qed.

Lemma JSON_parse_never_throws_witness :
  fst (JSON_parse sampleOriginalParse JSUndefined (JSString "{") JSUndefined) = Normal JSNull /\
  JSON_parse sampleOriginalParse JSUndefined (JSNumber 42%float) JSUndefined =
    (Normal (JSNumber 42%float), [String.append "JSON.parse called with non-string: " "number"]) /\
  (exists v, fst (JSON_parse sampleOriginalParse JSUndefined (JSString "true") JSUndefined) = Normal v).
Proof.
  split; [|split].
  - apply (proj2 (proj2 (JSON_parse_never_throws sampleOriginalParse JSUndefined (JSString "{") JSUndefined))
             (JSObject 0)); reflexivity.
  - apply (proj1 (proj2 (JSON_parse_never_throws sampleOriginalParse JSUndefined (JSNumber 42%float) JSUndefined))).
    cbn. discriminate.
  - exact (proj1 (JSON_parse_never_throws sampleOriginalParse JSUndefined (JSString "true") JSUndefined)).
Defined.

(** ** Geofence *)

Section GeofenceBounds.

Local Open Scope R_scope.

Lemma Rsqr_sin_le : forall x, Rsqr (sin x) <= Rsqr x.
Proof.
  assert (Hpos : forall x, 0 <= x -> Rsqr (sin x) <= Rsqr x).
  { intros x Hx. destruct (Rle_dec x PI) as [Hle|Hgt].
    - destruct Hx as [Hx|Hx].
      + pose proof (sin_lt_x x Hx). pose proof (sin_ge_0 x (Rlt_le _ _ Hx) Hle).
        unfold Rsqr; nra.
      + subst. rewrite sin_0. unfold Rsqr; lra.
    - pose proof (SIN_bound x). pose proof PI2_1. unfold Rsqr; nra. }
  intros x. destruct (Rle_dec 0 x) as [H|H].
  - now apply Hpos.
  - rewrite (Rsqr_neg x), (Rsqr_neg (sin x)), <- sin_neg. apply Hpos. lra.
Qed.

Lemma haversine_le : forall p1 p2 a b,
  Rsqr (sin a) + cos p1 * cos p2 * Rsqr (sin b) <= Rsqr a + Rsqr b.
Proof.
  intros p1 p2 a b.
  pose proof (Rsqr_sin_le a). pose proof (Rsqr_sin_le b).
  pose proof (COS_bound p1). pose proof (COS_bound p2).
  pose proof (Rle_0_sqr (sin b)).
  assert (cos p1 * cos p2 <= 1) by nra.
  nra.
Qed.

Lemma asin_le_of_le_sin : forall y z,
  0 <= z <= 1 -> -1 <= y <= 1 -> y <= sin z -> asin y <= z.
Proof.
  intros y z Hz Hy Hs. destruct (Rle_dec (asin y) z) as [H|H]; [exact H|].
  exfalso. pose proof (asin_bound y). pose proof PI2_1.
  assert (sin z < sin (asin y)) by (apply sin_increasing_1; lra).
  rewrite sin_asin in H2 by exact Hy. lra.
Qed.

Lemma sin_0_002 : 1/1000 < sin (2/1000).
Proof.
  pose proof (sin_bound (2/1000) 0) as Hb. pose proof PI2_1.
  destruct Hb as [Hb _]; [lra|lra|].
  unfold sin_approx, sin_term in Hb. cbn in Hb. lra.
Qed.

(** C5: the waypoint [{lat 34.05; lon -81.03; alt 150}] checked against the
    Columbia SC geofence (center 34.0 N 81.0 W, radius 32186.88 m, maximum
    altitude 120 m) lies within the radius (its great-circle distance from
    the center is at most 32186.88 m), its altitude is above 120 m, and the
    check rejects it with [AltitudeExceeded]. *)
Theorem geofence_altitude_scenario :
  let w := {| lat := 34.05; lon := -81.03; alt := 150 |} in
  greatCircleDistance (centerLat COLUMBIA_SC_GEOFENCE) (centerLon COLUMBIA_SC_GEOFENCE) (lat w) (lon w)
    <= radiusMeters COLUMBIA_SC_GEOFENCE /\
  maxAltitudeMeters COLUMBIA_SC_GEOFENCE < alt w /\
  validateGeofence COLUMBIA_SC_GEOFENCE w = Some AltitudeExceeded.
Proof.
  intros w.
  assert (Hd : greatCircleDistance 34.0 (-81.0) 34.05 (-81.03) <= 2 * EARTH_RADIUS_M * (2/1000)).
  { unfold greatCircleDistance.
    set (h := Rsqr (sin (deg2rad (34.05 - 34.0) / 2)) + cos (deg2rad 34.0) * cos (deg2rad 34.05) * Rsqr (sin (deg2rad (-81.03 - -81.0) / 2))).
    assert (Hh : h <= Rsqr (1/1000)).
    { eapply Rle_trans; [apply haversine_le|].
      unfold deg2rad, Rsqr. pose proof PI_4. pose proof PI_RGT_0. nra. }
    pose proof (sqrt_le_1_alt _ _ Hh) as Hs. rewrite sqrt_Rsqr in Hs by lra.
    pose proof (R_sqrt.sqrt_pos h). pose proof sin_0_002.
    assert (asin (R_sqrt.sqrt h) <= 2/1000) by (apply asin_le_of_le_sin; lra).
    unfold EARTH_RADIUS_M in *. lra. }
  split; [cbn; unfold EARTH_RADIUS_M in Hd; lra|].
  split; [cbn; lra|].
  unfold validateGeofence. cbn.
  destruct (Rlt_dec 32186.88 (greatCircleDistance 34.0 (-81.0) 34.05 (-81.03))) as [H|H].
  - unfold EARTH_RADIUS_M in Hd. lra.
  - destruct (Rlt_dec 120 150) as [_|H']; [reflexivity|lra].
Qed.

End GeofenceBounds.
(** ** IEEE order, [Math.min] and [Math.max] *)

Lemma SFcompare_key : forall x y, x <> S754_nan -> y <> S754_nan ->
  SFcompare x y = Some (lexCompare (sfKey x) (sfKey y)).
Proof.
  intros x y Hx Hy.
  destruct x as [s1|s1| |s1 m1 e1]; [| |congruence|];
  destruct y as [s2|s2| |s2 m2 e2]; try congruence;
  try destruct s1; try destruct s2; cbn; try reflexivity.
  rewrite Z.compare_opp, (Z.compare_antisym e1 e2).
  destruct (e1 ?= e2)%Z; reflexivity.
Qed.

Lemma lexCompare_refl : forall k, lexCompare k k = Eq.
Proof. intros [[a b] c]; cbn; now rewrite !(proj2 (Z.compare_eq_iff _ _) eq_refl). Qed.

Lemma lexCompare_Lt : forall k k', lexCompare k k' = Lt <-> lexLt k k'.
Proof.
  intros [[a b] c] [[a' b'] c']; cbn.
  destruct (Z.compare_spec a a'); [destruct (Z.compare_spec b b'); [destruct (Z.compare_spec c c')|..]|..];
    split; intros H'; try discriminate; try reflexivity; lia.
Qed.

Lemma lexCompare_Gt : forall k k', lexCompare k k' = Gt <-> lexLt k' k.
Proof.
  intros [[a b] c] [[a' b'] c']; cbn.
  destruct (Z.compare_spec a a'); [destruct (Z.compare_spec b b'); [destruct (Z.compare_spec c c')|..]|..];
    split; intros H'; try discriminate; try reflexivity; lia.
Qed.

Lemma is_nan_Prim2SF : forall x, is_nan x = true <-> Prim2SF x = S754_nan.
Proof.
  intros x. unfold is_nan. rewrite FloatAxioms.eqb_spec. unfold SFeqb.
  destruct (Prim2SF x) eqn:E; try (split; [discriminate|reflexivity]; fail);
    try (rewrite SFcompare_key by discriminate; rewrite lexCompare_refl; split; discriminate).
  split; reflexivity.
Qed.

Lemma not_nan : forall x, is_nan x = false -> Prim2SF x <> S754_nan.
Proof. intros x H E. apply is_nan_Prim2SF in E. congruence. Qed.

Lemma fltb_lex : forall x y, is_nan x = false -> is_nan y = false ->
  (x <? y)%float = true <-> lexLt (fkey x) (fkey y).
Proof.
  intros x y Hx Hy. rewrite FloatAxioms.ltb_spec. unfold SFltb, fkey.
  rewrite SFcompare_key by (apply not_nan; assumption).
  rewrite <- lexCompare_Lt. destruct (lexCompare _ _); split; congruence.
Qed.

Lemma fltb_false_lex : forall x y, is_nan x = false -> is_nan y = false ->
  (x <? y)%float = false <-> ~ lexLt (fkey x) (fkey y).
Proof.
  intros x y Hx Hy. rewrite <- (fltb_lex x y Hx Hy). destruct (x <? y)%float; split; congruence.
Qed.

Lemma fleb_lex : forall x y, is_nan x = false -> is_nan y = false ->
  (x <=? y)%float = true <-> ~ lexLt (fkey y) (fkey x).
Proof.
  intros x y Hx Hy. rewrite FloatAxioms.leb_spec. unfold SFleb, fkey.
  rewrite SFcompare_key by (apply not_nan; assumption).
  rewrite <- lexCompare_Gt. destruct (lexCompare _ _); split; congruence.
Qed.

Lemma fltb_nan_any : forall x y, is_nan x = true \/ is_nan y = true -> (x <? y)%float = false.
Proof.
  intros x y [H|H]; apply is_nan_Prim2SF in H; rewrite FloatAxioms.ltb_spec; unfold SFltb; rewrite H;
    [reflexivity|]. destruct (Prim2SF x); reflexivity.
Qed.

Lemma fleb_nan_l : forall x y, is_nan x = true -> (x <=? y)%float = false.
Proof. intros x y H; apply is_nan_Prim2SF in H; rewrite FloatAxioms.leb_spec; unfold SFleb; rewrite H; reflexivity. Qed.

Lemma fleb_nan_r : forall x y, is_nan y = true -> (x <=? y)%float = false.
Proof. intros x y H; apply is_nan_Prim2SF in H; rewrite FloatAxioms.leb_spec; unfold SFleb; rewrite H; destruct (Prim2SF x); reflexivity. Qed.

Lemma is_nan_nan : is_nan nan = true.
Proof. reflexivity. Qed.

Ltac lex_solve :=
  unfold lexLt in *;
  repeat match goal with
  | |- context [fkey ?x] => let k := fresh "k" in set (k := fkey x) in *; clearbody k; destruct k as [[? ?] ?]
  | H : context [fkey ?x] |- _ => let k := fresh "k" in set (k := fkey x) in *; clearbody k; destruct k as [[? ?] ?]
  end; lia.

Lemma Math_min_spec : forall a b, is_nan a = false -> is_nan b = false ->
  (Math_min a b = a \/ Math_min a b = b) /\
  ~ lexLt (fkey a) (fkey (Math_min a b)) /\ ~ lexLt (fkey b) (fkey (Math_min a b)).
Proof.
  intros a b Ha Hb. unfold Math_min. rewrite Ha, Hb. cbn [orb].
  destruct (a <? b)%float eqn:H1; [apply fltb_lex in H1; auto; split; [now left|lex_solve]|].
  apply fltb_false_lex in H1; auto.
  destruct (b <? a)%float eqn:H2; [apply fltb_lex in H2; auto; split; [now right|lex_solve]|].
  apply fltb_false_lex in H2; auto.
  destruct (get_sign a); (split; [auto|lex_solve]).
Qed.

Lemma Math_max_spec : forall a b, is_nan a = false -> is_nan b = false ->
  (Math_max a b = a \/ Math_max a b = b) /\
  ~ lexLt (fkey (Math_max a b)) (fkey a) /\ ~ lexLt (fkey (Math_max a b)) (fkey b).
Proof.
  intros a b Ha Hb. unfold Math_max. rewrite Ha, Hb. cbn [orb].
  destruct (a <? b)%float eqn:H1; [apply fltb_lex in H1; auto; split; [now right|lex_solve]|].
  apply fltb_false_lex in H1; auto.
  destruct (b <? a)%float eqn:H2; [apply fltb_lex in H2; auto; split; [now left|lex_solve]|].
  apply fltb_false_lex in H2; auto.
  destruct (get_sign a); (split; [auto|lex_solve]).
Qed.

Lemma Math_min_nan : forall a b, is_nan a = true \/ is_nan b = true -> Math_min a b = nan.
Proof. intros a b [H|H]; unfold Math_min; rewrite H; [reflexivity|now rewrite orb_true_r]. Qed.

Lemma Math_max_nan : forall a b, is_nan a = true \/ is_nan b = true -> Math_max a b = nan.
Proof. intros a b [H|H]; unfold Math_max; rewrite H; [reflexivity|now rewrite orb_true_r]. Qed.

Lemma Math_min_not_nan : forall a b, is_nan a = false -> is_nan b = false -> is_nan (Math_min a b) = false.
Proof. intros a b Ha Hb. destruct (Math_min_spec a b Ha Hb) as [[-> | ->] _]; assumption. Qed.

(** The clamp [Math.max(lo, Math.min(hi, v))] of [validateSize]. *)
Lemma clamp_bounds : forall lo hi v, (lo <=? hi)%float = true ->
  (Math_max lo (Math_min hi v) <? lo)%float = false /\ (hi <? Math_max lo (Math_min hi v))%float = false.
Proof.
  intros lo hi v Hle.
  assert (Hlo : is_nan lo = false) by (destruct (is_nan lo) eqn:E; [rewrite fleb_nan_l in Hle by exact E; discriminate|reflexivity]).
  assert (Hhi : is_nan hi = false) by (destruct (is_nan hi) eqn:E; [rewrite fleb_nan_r in Hle by exact E; discriminate|reflexivity]).
  apply fleb_lex in Hle; auto.
  destruct (is_nan v) eqn:Hv.
  - rewrite Math_min_nan by auto. rewrite Math_max_nan by (right; exact is_nan_nan).
    split; apply fltb_nan_any; [left|right]; exact is_nan_nan.
  - pose proof (Math_min_not_nan hi v Hhi Hv) as Hm.
    destruct (Math_min_spec hi v Hhi Hv) as (Hmv & Hm1 & Hm2).
    set (m := Math_min hi v) in *.
    destruct (Math_max_spec lo m Hlo Hm) as (Hr & Hr1 & Hr2).
    set (r := Math_max lo m) in *.
    assert (Hrn : is_nan r = false) by (destruct Hr as [-> | ->]; assumption).
    split; apply fltb_false_lex; auto.
    destruct Hr as [Hr | Hr]; rewrite Hr in *; lex_solve.
Qed.

Lemma clamp_inverted : forall lo hi v, (hi <? lo)%float = true -> is_nan v = false ->
  Math_max lo (Math_min hi v) = lo.
Proof.
  intros lo hi v Hlt Hv.
  assert (Hhi : is_nan hi = false) by (destruct (is_nan hi) eqn:E; [rewrite fltb_nan_any in Hlt by auto; discriminate|reflexivity]).
  assert (Hlo : is_nan lo = false) by (destruct (is_nan lo) eqn:E; [rewrite fltb_nan_any in Hlt by auto; discriminate|reflexivity]).
  apply fltb_lex in Hlt; auto.
  pose proof (Math_min_not_nan hi v Hhi Hv) as Hm.
  destruct (Math_min_spec hi v Hhi Hv) as (_ & Hm1 & _).
  set (m := Math_min hi v) in *.
  destruct (Math_max_spec lo m Hlo Hm) as ([Hr|Hr] & Hr1 & Hr2); [exact Hr|].
  exfalso. rewrite Hr in Hr1. lex_solve.
Qed.

Lemma clamp_nan : forall lo hi v, is_nan v = true -> Math_max lo (Math_min hi v) = nan.
Proof. intros lo hi v H. rewrite Math_min_nan by auto. apply Math_max_nan. right; exact is_nan_nan. Qed.


(** ** Viewport sizing and dragging *)
Lemma validateSize_withinBounds : forall props s,
  (width (minSize props) <=? width (maxSize props))%float = true ->
  (height (minSize props) <=? height (maxSize props))%float = true ->
  withinBounds props (validateSize props s) = true.
Proof.
  intros props s Hw Hh. unfold withinBounds, validateSize; cbn [width height].
  destruct (clamp_bounds _ _ (width s) Hw) as [-> ->].
  destruct (clamp_bounds _ _ (height s) Hh) as [-> ->]. reflexivity.
Qed.


Lemma fold_left_preserves : forall {A B} (P : A -> Prop) (f : A -> B -> A) (ls : list B) a,
  (forall a b, P a -> P (f a b)) -> P a -> P (fold_left f ls a).
Proof. intros A B P f ls; induction ls; intros; cbn; auto. Qed.

Lemma viewStep_inv : forall props st ev,
  (width (minSize props) <=? width (maxSize props))%float = true ->
  (height (minSize props) <=? height (maxSize props))%float = true ->
  ViewInv props st -> ViewInv props (viewStep props st ev).
Proof.
  intros props st ev Hw Hh Hinv. destruct ev as [x y|x y|]; cbn [viewStep].
  - exact Hinv.
  - apply fold_left_preserves; [|exact Hinv].
    intros s l [Hs Hc]. unfold handleResize. destruct (negb (isResizing s)); [split; assumption|].
    split; cbn [sizeChanges currentSize].
    + apply Forall_app; split; [exact Hs|]. constructor; [|constructor].
      apply validateSize_withinBounds; assumption.
    + right. apply validateSize_withinBounds; assumption.
  - apply fold_left_preserves; [|exact Hinv]. intros s l H; exact H.
Qed.

Lemma stop_fold_listeners : forall ls st l',
  In l' (listeners (fold_left (fun s l => stopResize l s) ls st)) ->
  In l' (listeners st) /\ forall l, In l ls -> listenerId l' <> listenerId l.
Proof.
  induction ls as [|l ls IH]; intros st l' Hin; cbn in Hin.
  - split; [exact Hin|]. intros l []. 
  - destruct (IH _ _ Hin) as [H1 H2]. cbn in H1. apply filter_In in H1 as [H1 H3].
    split; [exact H1|]. intros l0 [<-|Hl0]; [|auto].
    apply negb_true_iff, Nat.eqb_neq in H3. exact H3.
Qed.

Lemma pointerUp_clears : forall props st, listeners (viewStep props st PointerUp) = [].
Proof.
  intros props st. cbn [viewStep].
  destruct (listeners (fold_left _ (listeners st) st)) as [|l' r] eqn:E; [reflexivity|].
  exfalso. destruct (stop_fold_listeners (listeners st) st l') as [H1 H2].
  - rewrite E; now left.
  - exact (H2 l' H1 eq_refl).
Qed.

Lemma moves_no_listeners : forall props st ms,
  listeners st = [] -> forallb isMove ms = true -> runViewFrom props st ms = st.
Proof.
  intros props st ms Hl; induction ms as [|ev ms IH]; intros Hm; [reflexivity|].
  cbn in Hm. destruct ev; try discriminate. cbn. rewrite Hl. cbn. apply IH. exact Hm.
Qed.

Lemma moves_keep_drag : forall props st ms l,
  listeners st = [l] -> isResizing st = true -> forallb isMove ms = true ->
  listeners (runViewFrom props st ms) = [l] /\ isResizing (runViewFrom props st ms) = true.
Proof.
  intros props st ms l; revert st; induction ms as [|ev ms IH]; intros st Hl Hr Hm; [auto|].
  cbn in Hm. destruct ev; try discriminate. cbn. rewrite Hl. cbn.
  unfold handleResize. rewrite Hr. cbn. apply IH; auto.
Qed.


(** [validateSize] clamps: when each minimum is at most its maximum, the
    returned width and height compare neither below the minimum nor above the
    maximum, for every requested size. *)
Theorem validateSize_within_bounds : forall props s,
  (width (minSize props) <=? width (maxSize props))%float = true ->
  (height (minSize props) <=? height (maxSize props))%float = true ->
  (width (validateSize props s) <? width (minSize props))%float = false /\
  (width (maxSize props) <? width (validateSize props s))%float = false /\
  (height (validateSize props s) <? height (minSize props))%float = false /\
  (height (maxSize props) <? height (validateSize props s))%float = false.
Proof.
  intros props s Hw Hh. unfold validateSize; cbn [width height].
  destruct (clamp_bounds _ _ (width s) Hw) as [H1 H2].
  destruct (clamp_bounds _ _ (height s) Hh) as [H3 H4]. auto.
Qed.

(** [validateSize] does not bound a [NaN] dimension: [Math.min] and
    [Math.max] propagate it, so a requested [NaN] width (or height) is
    returned as [NaN]. *)
Theorem validateSize_keeps_nan : forall props s,
  (is_nan (width s) = true -> is_nan (width (validateSize props s)) = true) /\
  (is_nan (height s) = true -> is_nan (height (validateSize props s)) = true).
Proof.
  intros props s. unfold validateSize; cbn [width height].
  split; intros H; rewrite clamp_nan by exact H; exact is_nan_nan.
Qed.

(** With a minimum above the maximum in both dimensions, [validateSize]
    returns the minimum size for every non-[NaN] request: [Math.max] with the
    minimum wins over [Math.min] with the maximum. *)
Theorem validateSize_inverted_bounds : forall props s,
  (width (maxSize props) <? width (minSize props))%float = true ->
  (height (maxSize props) <? height (minSize props))%float = true ->
  is_nan (width s) = false -> is_nan (height s) = false ->
  validateSize props s = minSize props.
Proof.
  intros props s Hw Hh Hnw Hnh. unfold validateSize.
  rewrite (clamp_inverted _ _ _ Hw Hnw), (clamp_inverted _ _ _ Hh Hnh).
  destruct (minSize props); reflexivity.
Qed.

(** Over any sequence of presses, moves and releases, every [size-change]
    emitted by [handleResize] is within the bounds, and so is [currentSize]
    once it has left the default size (given minima at most the maxima). *)
Theorem drag_sizes_within_bounds : forall props evs,
  (width (minSize props) <=? width (maxSize props))%float = true ->
  (height (minSize props) <=? height (maxSize props))%float = true ->
  Forall (fun s => withinBounds props s = true) (sizeChanges (runView props evs)) /\
  (currentSize (runView props evs) = defaultSize props \/
   withinBounds props (currentSize (runView props evs)) = true).
Proof.
  intros props evs Hw Hh. unfold runView, runViewFrom.
  apply (fold_left_preserves (ViewInv props)).
  - intros st ev; apply viewStep_inv; assumption.
  - split; [constructor|left; reflexivity].
Qed.

(** After a release, further moves change nothing: [stopResize] removed
    every [handleResize] from the document, so no size is set or emitted. *)
Theorem drag_moves_ignored_after_release : forall props evs moves,
  forallb isMove moves = true ->
  runView props (evs ++ PointerUp :: moves) = runView props (evs ++ [PointerUp]).
Proof.
  intros props evs moves Hm. unfold runView, runViewFrom.
  rewrite !fold_left_app. cbn [fold_left].
  apply moves_no_listeners; [apply pointerUp_clears|exact Hm].
Qed.

(** In a drag started when no listener is registered, the size after the
    last move depends only on the start size and the pointer's total
    displacement from the press: [validateSize] of
    [startSize + (x - startX, y - startY)], whatever the moves in between. *)
Theorem drag_size_from_last_position : forall props evs x0 y0 ms x y,
  listeners (runView props evs) = [] -> forallb isMove ms = true ->
  currentSize (runView props (evs ++ PointerDown x0 y0 :: ms ++ [PointerMove x y])) =
  validateSize props
    {| width := (width (currentSize (runView props evs)) + (x - x0))%float;
       height := (height (currentSize (runView props evs)) + (y - y0))%float |}.
Proof.
  intros props evs x0 y0 ms x y Hl Hm. unfold runView in *. unfold runViewFrom in *.
  rewrite fold_left_app. cbn [fold_left]. rewrite fold_left_app.
  set (st0 := fold_left (viewStep props) evs (initialView props)) in *.
  set (l0 := {| listenerId := nextListenerId st0; startX := x0; startY := y0; startSize := currentSize st0 |}).
  assert (Hd : listeners (viewStep props st0 (PointerDown x0 y0)) = [l0])
    by (cbn; rewrite Hl; reflexivity).
  destruct (moves_keep_drag props (viewStep props st0 (PointerDown x0 y0)) ms l0 Hd eq_refl Hm) as [H1 H2].
  unfold runViewFrom in H1, H2.
  set (st1 := fold_left (viewStep props) ms (viewStep props st0 (PointerDown x0 y0))) in *.
  cbn [fold_left]. unfold viewStep at 1. rewrite H1. cbn [fold_left].
  unfold handleResize. rewrite H2. reflexivity.
Qed.
(** ** Parameter display names and categories *)
Lemma jsArrayGet_none : forall {A} (xs : list A) k i,
  jsArrayGet xs k i = None <-> forall j, j < length xs -> PrimFloat.eqb i (float_of_nat (k + j)) = false.
Proof.
  intros A xs; induction xs as [|x r IH]; intros k i; cbn -[float_of_nat].
  - split; [intros _ j Hj; lia|reflexivity].
  - destruct (PrimFloat.eqb i (float_of_nat k)) eqn:E.
    + split; [intros ?; discriminate|]. intros H. specialize (H 0 ltac:(lia)). rewrite Nat.add_0_r in H. congruence.
    + rewrite IH. split.
      * intros H [|j] Hj; [rewrite Nat.add_0_r; exact E|].
        replace (k + S j) with (S k + j) by lia. apply H. lia.
      * intros H j Hj. replace (S k + j) with (k + S j) by lia. apply H. lia.
Qed.

(** [getParameterDisplayName] throws a [TypeError] exactly for a command of
    the table and an index in [[0, 7)] that is not one of the integers
    [0..6] (e.g. [NaN] or [2.5]): [params[paramIndex]] is then [undefined]. *)
Theorem getParameterDisplayName_type_error : forall numberToString command paramIndex,
  getParameterDisplayName numberToString command paramIndex = ThrowsTypeError <->
  getCommandDefinition command <> None /\
  (paramIndex <? 0)%float = false /\ (7 <=? paramIndex)%float = false /\
  forall k, k < 7 -> PrimFloat.eqb paramIndex (float_of_nat k) = false.
Proof.
  intros nts c i. unfold getParameterDisplayName.
  destruct (getCommandDefinition c) as [d|] eqn:Hd.
  - pose proof (getCommandDefinition_arity c d Hd) as Hlen.
    destruct (i <? 0)%float eqn:H0; destruct (7 <=? i)%float eqn:H7; cbn [orb];
      try (split; [intros ?; discriminate|intros (_ & ? & ? & _); discriminate]).
    destruct (jsArrayGet (params d) 0 i) as [p|] eqn:Hg.
    + split; [intros ?; discriminate|]. intros (_ & _ & _ & H).
      assert (jsArrayGet (params d) 0 i = None) as Hn by (apply jsArrayGet_none; rewrite Hlen; exact H).
      congruence.
    + rewrite jsArrayGet_none in Hg. rewrite Hlen in Hg.
      split; [intros _|reflexivity]. split; [intros ?; discriminate|]. auto.
  - split; [intros ?; discriminate|]. intros [H _]. contradiction.
Qed.

(** For a command of the table and an integer index [k < 7],
    [getParameterDisplayName] returns the name of parameter [k]. *)
Theorem getParameterDisplayName_index : forall numberToString command definition k,
  getCommandDefinition command = Some definition -> k < 7 ->
  exists p, nth_error (params definition) k = Some p /\
            getParameterDisplayName numberToString command (float_of_nat k) = Returns (name p).
Proof.
  intros nts c d k Hd Hk. pose proof (getCommandDefinition_arity c d Hd) as Hlen.
  unfold getParameterDisplayName. rewrite Hd.
  destruct (params d) as [|p0 [|p1 [|p2 [|p3 [|p4 [|p5 [|p6 [|? ?]]]]]]]]; try discriminate Hlen.
  do 7 (destruct k as [|k]; [eexists; split; [reflexivity|vm_compute; reflexivity]|]). lia.
Qed.


Lemma lookupKey_app_new : forall {V} k k' (v : V) m,
  lookupKey k (m ++ [(k', v)]) =
  match lookupKey k m with Some w => Some w | None => if String.eqb k' k then Some v else None end.
Proof.
  intros V k k' v m; induction m as [|[k0 v0] m IH]; unfold lookupKey in *; cbn.
  - destruct (String.eqb k' k); reflexivity.
  - destruct (String.eqb k0 k); [reflexivity|exact IH].
Qed.

Lemma lookupKey_update : forall k k' c (m : list (string * list MAVCmd)),
  lookupKey k (map (fun kv => if String.eqb (fst kv) k' then (fst kv, snd kv ++ [c]) else kv) m) =
  match lookupKey k m with
  | Some w => Some (if String.eqb k k' then w ++ [c] else w)
  | None => None
  end.
Proof.
  intros k k' c m; induction m as [|[k0 v0] m IH]; unfold lookupKey in *; cbn; [reflexivity|].
  destruct (String.eqb k0 k') eqn:E1; cbn; destruct (String.eqb k0 k) eqn:E2; try exact IH.
  - apply String.eqb_eq in E1, E2. subst. rewrite String.eqb_refl. reflexivity.
  - destruct (String.eqb k k') eqn:E3; [|reflexivity].
    apply String.eqb_eq in E2, E3. subst. rewrite String.eqb_refl in E1. discriminate.
Qed.

Lemma getCommandsByCategory_lookup_from : forall values cats k,
  lookupKey k (fold_left pushCategory values cats) =
  match lookupKey k cats with
  | Some l => Some (l ++ commandsIn k values)
  | None => match commandsIn k values with [] => None | l => Some l end
  end.
Proof.
  induction values as [|d values IH]; intros cats k; cbn [fold_left].
  - destruct (lookupKey k cats); [rewrite app_nil_r|]; reflexivity.
  - rewrite IH. unfold pushCategory, commandsIn. cbn [filter].
    set (kd := categoryKey (category d)).
    destruct (String.eqb kd k) eqn:Ek.
    + apply String.eqb_eq in Ek. rewrite <- Ek. cbn [map].
      destruct (lookupKey kd cats) as [w|] eqn:Hw.
      * rewrite lookupKey_update, Hw, String.eqb_refl, <- app_assoc. reflexivity.
      * rewrite lookupKey_app_new, Hw, String.eqb_refl. reflexivity.
    + destruct (lookupKey kd cats) as [w|] eqn:Hw.
      * rewrite lookupKey_update.
        destruct (String.eqb k kd) eqn:E2; [apply String.eqb_eq in E2; subst; rewrite String.eqb_refl in Ek; discriminate|].
        destruct (lookupKey k cats); reflexivity.
      * rewrite lookupKey_app_new, Ek. destruct (lookupKey k cats); reflexivity.
Qed.

Lemma Permutation_filter_map : forall {A B} (f : A -> bool) (g : A -> B) l l',
  Permutation l l' -> Permutation (map g (filter f l)) (map g (filter f l')).
Proof.
  intros A B f g l l' H; induction H; cbn.
  - constructor.
  - destruct (f x); cbn; [constructor|]; assumption.
  - destruct (f x), (f y); cbn; try constructor; try apply Permutation_refl.
  - eapply Permutation_trans; eassumption.
Qed.

(** Whatever order [Object.values] enumerates the table in, each category
    present in the table maps to a non-empty list holding exactly its
    commands, each once; a category absent from the table ([Gimbal]) has no
    key. *)
Theorem getCommandsByCategory_groups : forall values,
  Permutation (map snd WAYPOINT_COMMANDS) values ->
  forall cat,
  match lookupKey (categoryKey cat) (getCommandsByCategory values) with
  | Some l => l <> [] /\
      Permutation l (map fst (filter (fun kv => String.eqb (categoryKey (category (snd kv))) (categoryKey cat))
                                     WAYPOINT_COMMANDS))
  | None => filter (fun kv => String.eqb (categoryKey (category (snd kv))) (categoryKey cat)) WAYPOINT_COMMANDS = []
  end.
Proof.
  intros values Hp cat. unfold getCommandsByCategory.
  rewrite getCommandsByCategory_lookup_from. cbn [lookupKey find].
  assert (Hkey : commandsIn (categoryKey cat) (map snd WAYPOINT_COMMANDS) =
                 map fst (filter (fun kv => String.eqb (categoryKey (category (snd kv))) (categoryKey cat))
                                 WAYPOINT_COMMANDS))
    by (destruct cat; vm_compute; reflexivity).
  assert (Hperm : Permutation (commandsIn (categoryKey cat) values)
                    (map fst (filter (fun kv => String.eqb (categoryKey (category (snd kv))) (categoryKey cat))
                                     WAYPOINT_COMMANDS)))
    by (rewrite <- Hkey; apply Permutation_sym, Permutation_filter_map, Hp).
  destruct (commandsIn (categoryKey cat) values) as [|c l] eqn:E.
  - apply Permutation_nil in Hperm. apply map_eq_nil in Hperm. exact Hperm.
  - split; [discriminate|exact Hperm].
Qed.

(** ** Connection-loss action lookup *)

(** [actionMap[type] || 'HOLD'] yields the action string of the fixed
    mapping (default [HOLD]) for every [type] that is not a key inherited from
    [Object.prototype]; for an inherited key such as [toString] it yields a
    function or object, not a string. *)
Theorem safetyActionTaken_prototype : forall type,
  (existsb (String.eqb type) objectPrototypeKeys = false ->
   safetyActionTaken type =
     JSString (failsafeActionName (match actionMap type with Some a => a | None => HOLD end))) /\
  (existsb (String.eqb type) objectPrototypeKeys = true ->
   typeof (safetyActionTaken type) <> "string"%string).
Proof.
  intros type. unfold safetyActionTaken, actionMapGet, actionMap.
  destruct (String.eqb type "radio_link") eqn:E1;
    [apply String.eqb_eq in E1; subst; split; [reflexivity|intros H; discriminate H]|].
  destruct (String.eqb type "data_link") eqn:E2;
    [apply String.eqb_eq in E2; subst; split; [reflexivity|intros H; discriminate H]|].
  destruct (String.eqb type "gps_loss") eqn:E3;
    [apply String.eqb_eq in E3; subst; split; [reflexivity|intros H; discriminate H]|].
  destruct (String.eqb type "low_battery") eqn:E4;
    [apply String.eqb_eq in E4; subst; split; [reflexivity|intros H; discriminate H]|].
  destruct (String.eqb type "__proto__") eqn:E5.
  - apply String.eqb_eq in E5; subst. split; [intros H; discriminate H|intros _; discriminate].
  - destruct (existsb (String.eqb type) objectPrototypeKeys); cbn.
    + split; [intros H; discriminate H|intros _; discriminate].
    + split; [reflexivity|intros H; discriminate H].
Qed.

(** ** [JSON.parse], [validateParameter] and releases *)

(** On a string argument the installed [JSON.parse] is transparent: when
    the original parser returns a value, the override returns that value and
    logs nothing. *)
Theorem JSON_parse_transparent : forall originalJSONParse this text reviver v,
  typeof text = "string"%string ->
  originalJSONParse this text reviver = Normal v ->
  JSON_parse originalJSONParse this text reviver = (Normal v, []).
Proof.
  intros orig this text reviver v Hs Horig. rewrite JSON_parse_cases, Hs, Horig. reflexivity.
Qed.

(** The values [validateParameter] accepts form an interval: a value
    between two accepted values is accepted. *)
Theorem validateParameter_interval : forall p a b v,
  validateParameter p a = true -> validateParameter p b = true ->
  (a <=? v)%float = true -> (v <=? b)%float = true ->
  validateParameter p v = true.
Proof.
  intros p a b v Ha Hb Hav Hvb.
  assert (Hna : is_nan a = false) by (destruct (is_nan a) eqn:E; [rewrite fleb_nan_l in Hav by exact E; discriminate|reflexivity]).
  assert (Hnv : is_nan v = false) by (destruct (is_nan v) eqn:E; [rewrite fleb_nan_r in Hav by exact E; discriminate|reflexivity]).
  assert (Hnb : is_nan b = false) by (destruct (is_nan b) eqn:E; [rewrite fleb_nan_r in Hvb by exact E; discriminate|reflexivity]).
  rewrite fleb_lex in Hav, Hvb by assumption.
  unfold validateParameter in *.
  destruct (min p) as [m|]; destruct (max p) as [M|]; cbv beta iota in Ha, Hb |- *.
  - destruct (a <? m)%float eqn:E1; [discriminate|]. destruct (b <? m)%float; [discriminate|].
    destruct (M <? b)%float eqn:E2; [discriminate|].
    destruct (is_nan m) eqn:Hm.
    + rewrite fltb_nan_any by auto. destruct (is_nan M) eqn:HM.
      * rewrite fltb_nan_any by auto. reflexivity.
      * destruct (M <? v)%float eqn:E4; [|reflexivity]. exfalso.
        rewrite fltb_lex in E4 by assumption. rewrite fltb_false_lex in E2 by assumption. lex_solve.
    + destruct (v <? m)%float eqn:E3.
      * exfalso. rewrite fltb_lex in E3 by assumption. rewrite fltb_false_lex in E1 by assumption. lex_solve.
      * destruct (is_nan M) eqn:HM; [rewrite fltb_nan_any by auto; reflexivity|].
        destruct (M <? v)%float eqn:E4; [|reflexivity]. exfalso.
        rewrite fltb_lex in E4 by assumption. rewrite fltb_false_lex in E2 by assumption. lex_solve.
  - destruct (a <? m)%float eqn:E1; [discriminate|].
    destruct (is_nan m) eqn:Hm; [rewrite fltb_nan_any by auto; reflexivity|].
    destruct (v <? m)%float eqn:E3; [|reflexivity]. exfalso.
    rewrite fltb_lex in E3 by assumption. rewrite fltb_false_lex in E1 by assumption. lex_solve.
  - destruct (M <? b)%float eqn:E2; [discriminate|].
    destruct (is_nan M) eqn:HM; [rewrite fltb_nan_any by auto; reflexivity|].
    destruct (M <? v)%float eqn:E4; [|reflexivity]. exfalso.
    rewrite fltb_lex in E4 by assumption. rewrite fltb_false_lex in E2 by assumption. lex_solve.
  - reflexivity.
Qed.

Lemma viewStep_resizing : forall props st ev,
  (isResizing st = true -> listeners st <> []) ->
  isResizing (viewStep props st ev) = true -> listeners (viewStep props st ev) <> [].
Proof.
  intros props st ev Hinv. destruct ev as [x y|x y|]; cbn [viewStep].
  - intros _. cbn. destruct (listeners st); cbn; discriminate.
  - assert (Hm : forall ls s, isResizing (fold_left (fun s l => handleResize props l x y s) ls s) = isResizing s /\
                              listeners (fold_left (fun s l => handleResize props l x y s) ls s) = listeners s).
    { induction ls as [|l ls IH]; intros s; [auto|]. cbn [fold_left].
      destruct (IH (handleResize props l x y s)) as [-> ->].
      unfold handleResize. destruct (negb (isResizing s)); auto. }
    destruct (Hm (listeners st) st) as [-> ->]. exact Hinv.
  - intros H. exfalso.
    destruct (listeners st) as [|l ls] eqn:E.
    + cbn [fold_left] in H. exact (Hinv H eq_refl).
    + cbn [fold_left] in H.
      assert (Hs : forall xs s, isResizing s = false ->
                   isResizing (fold_left (fun s l => stopResize l s) xs s) = false).
      { induction xs as [|l0 xs IH]; intros s Hs; [exact Hs|]. cbn. apply IH. reflexivity. }
      rewrite Hs in H by reflexivity. discriminate.
Qed.

(** A release ends every drag: afterwards no listener is registered and
    [isResizing] is [false], also after several presses without a release. *)
Theorem drag_release_stops : forall props evs,
  listeners (runView props (evs ++ [PointerUp])) = [] /\
  isResizing (runView props (evs ++ [PointerUp])) = false.
Proof.
  intros props evs. unfold runView, runViewFrom. rewrite fold_left_app. cbn [fold_left].
  set (st := fold_left (viewStep props) evs (initialView props)).
  assert (Hinv : isResizing st = true -> listeners st <> []).
  { unfold st. apply (fold_left_preserves (fun s => isResizing s = true -> listeners s <> [])).
    - intros s ev; apply viewStep_resizing.
    - intros H; discriminate H. }
  pose proof (pointerUp_clears props st) as Hl. split; [exact Hl|].
  destruct (isResizing (viewStep props st PointerUp)) eqn:E; [|reflexivity].
  exfalso. exact (viewStep_resizing props st PointerUp Hinv E Hl).
Qed.

(** ** The added properties at concrete inputs *)
Lemma validateSize_within_bounds_witness :
  (width (validateSize defaultViewportProps {| width := 5000; height := -3 |}) <? 320)%float = false /\
  (1920 <? width (validateSize defaultViewportProps {| width := 5000; height := -3 |}))%float = false /\
  (height (validateSize defaultViewportProps {| width := 5000; height := -3 |}) <? 240)%float = false /\
  (1080 <? height (validateSize defaultViewportProps {| width := 5000; height := -3 |}))%float = false.
Proof. apply (validateSize_within_bounds defaultViewportProps); vm_compute; reflexivity. Defined.

Lemma validateSize_keeps_nan_witness :
  is_nan (width (validateSize defaultViewportProps {| width := nan; height := 500 |})) = true.
Proof. apply (proj1 (validateSize_keeps_nan defaultViewportProps _)). vm_compute. reflexivity. Defined.

Lemma validateSize_inverted_bounds_witness :
  validateSize invertedViewportProps {| width := 300; height := 50 |} = {| width := 500; height := 500 |}.
Proof. apply (validateSize_inverted_bounds invertedViewportProps); vm_compute; reflexivity. Defined.

Lemma drag_sizes_within_bounds_witness :
  Forall (fun s => withinBounds defaultViewportProps s = true)
    (sizeChanges (runView defaultViewportProps [PointerDown 100 100; PointerMove 5000 (-5000); PointerUp])) /\
  (currentSize (runView defaultViewportProps [PointerDown 100 100; PointerMove 5000 (-5000); PointerUp]) =
     defaultSize defaultViewportProps \/
   withinBounds defaultViewportProps
     (currentSize (runView defaultViewportProps [PointerDown 100 100; PointerMove 5000 (-5000); PointerUp])) = true).
Proof. apply drag_sizes_within_bounds; vm_compute; reflexivity. Defined.

Lemma drag_moves_ignored_after_release_witness :
  runView defaultViewportProps ([PointerDown 0 0; PointerMove 40 30] ++ PointerUp :: [PointerMove 900 900]) =
  runView defaultViewportProps ([PointerDown 0 0; PointerMove 40 30] ++ [PointerUp]).
Proof. apply drag_moves_ignored_after_release. reflexivity. Defined.

Lemma drag_size_from_last_position_witness :
  currentSize (runView defaultViewportProps ([] ++ PointerDown 100 100 :: [PointerMove 5000 5000] ++ [PointerMove 150 90])) =
  validateSize defaultViewportProps
    {| width := (width (currentSize (runView defaultViewportProps [])) + (150 - 100))%float;
       height := (height (currentSize (runView defaultViewportProps [])) + (90 - 100))%float |}.
Proof. apply drag_size_from_last_position; reflexivity. Defined.

Lemma getParameterDisplayName_type_error_witness :
  getParameterDisplayName (fun _ => "?"%string) NAV_TAKEOFF 2.5%float = ThrowsTypeError.
Proof.
  apply getParameterDisplayName_type_error.
  split; [discriminate|]. split; [reflexivity|]. split; [reflexivity|].
  intros k Hk. do 7 (destruct k as [|k]; [reflexivity|]). lia.
Defined.

Lemma getParameterDisplayName_index_witness :
  exists d, getCommandDefinition NAV_TAKEOFF = Some d /\
  exists p, nth_error (params d) 6 = Some p /\
    getParameterDisplayName (fun _ => "?"%string) NAV_TAKEOFF (float_of_nat 6) = Returns (name p).
Proof.
  eexists; split; [reflexivity|].
  apply (getParameterDisplayName_index _ NAV_TAKEOFF _ 6); [reflexivity|lia].
Defined.

Lemma getCommandsByCategory_groups_witness :
  match lookupKey (categoryKey Camera) (getCommandsByCategory (rev (map snd WAYPOINT_COMMANDS))) with
  | Some l => l <> [] /\
      Permutation l (map fst (filter (fun kv => String.eqb (categoryKey (category (snd kv))) (categoryKey Camera))
                                     WAYPOINT_COMMANDS))
  | None => filter (fun kv => String.eqb (categoryKey (category (snd kv))) (categoryKey Camera)) WAYPOINT_COMMANDS = []
  end.
Proof. apply getCommandsByCategory_groups. apply Permutation_rev. Defined.

Lemma safetyActionTaken_prototype_witness :
  safetyActionTaken "gps_loss" = JSString "LAND" /\ typeof (safetyActionTaken "toString") <> "string"%string.
Proof.
  split.
  - apply (proj1 (safetyActionTaken_prototype "gps_loss")). reflexivity.
  - apply (proj2 (safetyActionTaken_prototype "toString")). reflexivity.
Defined.

Lemma JSON_parse_transparent_witness :
  JSON_parse sampleOriginalParse JSUndefined (JSString "true") JSUndefined = (Normal (JSBool true), []).
Proof. apply JSON_parse_transparent; reflexivity. Defined.

Lemma validateParameter_interval_witness :
  validateParameter (P "Altitude" "meters" (-1000)%float 10000%float 50%float) 123.25%float = true.
Proof.
  apply (validateParameter_interval _ (-1000)%float 10000%float); vm_compute; reflexivity.
Defined.

(** ** Idempotence of [validateSize] and stacked drags *)

Lemma tltb_spec : forall k k', tltb k k' = true <-> lexLt k k'.
Proof.
  intros k k'. unfold tltb. rewrite <- lexCompare_Lt. destruct (lexCompare k k'); split; congruence.
Qed.

Lemma fkey_tkey_lt : forall x y, lexLt (fkey x) (fkey y) -> lexLt (tkey x) (tkey y).
Proof.
  intros x y. unfold fkey, tkey.
  destruct (Prim2SF x) as [[]|[]| |[] ? ?], (Prim2SF y) as [[]|[]| |[] ? ?]; cbn; lia.
Qed.

Lemma fkey_tie : forall x y, is_nan x = false -> is_nan y = false ->
  ~ lexLt (fkey x) (fkey y) -> ~ lexLt (fkey y) (fkey x) ->
  x = y \/ (x = 0%float /\ y = (-0)%float) \/ (x = (-0)%float /\ y = 0%float).
Proof.
  intros x y Hx Hy H1 H2.
  assert (Hx' := not_nan x Hx). assert (Hy' := not_nan y Hy).
  rewrite <- (SF2Prim_Prim2SF x), <- (SF2Prim_Prim2SF y). unfold fkey in H1, H2.
  destruct (Prim2SF x) as [[]|[]| |[] ? ?] eqn:Ex, (Prim2SF y) as [[]|[]| |[] ? ?] eqn:Ey;
    cbn in H1, H2; try congruence; try (exfalso; lia);
    try (left; reflexivity); try (right; left; split; reflexivity); try (right; right; split; reflexivity);
    left; f_equal; f_equal; lia.
Qed.

Lemma tkey_lt_of_fltb : forall x y, is_nan x = false -> is_nan y = false ->
  (x <? y)%float = true -> lexLt (tkey x) (tkey y).
Proof. intros x y Hx Hy H. apply fkey_tkey_lt. apply fltb_lex; assumption. Qed.

Ltac lex_contra :=
  unfold lexLt in *;
  repeat match goal with
  | |- context [tkey ?x] => let k := fresh "k" in set (k := tkey x) in *; clearbody k; destruct k as [[? ?] ?]
  | H : context [tkey ?x] |- _ => let k := fresh "k" in set (k := tkey x) in *; clearbody k; destruct k as [[? ?] ?]
  end; lia.

Lemma Math_min_total : forall a b, is_nan a = false -> is_nan b = false ->
  Math_min a b = if tltb (tkey b) (tkey a) then b else a.
Proof.
  intros a b Ha Hb. unfold Math_min. rewrite Ha, Hb. cbn [orb].
  destruct (a <? b)%float eqn:E1.
  - apply tkey_lt_of_fltb in E1; [|assumption|assumption].
    destruct (tltb (tkey b) (tkey a)) eqn:E; [|reflexivity].
    apply tltb_spec in E. exfalso. lex_contra.
  - destruct (b <? a)%float eqn:E2.
    + apply tkey_lt_of_fltb in E2; [|assumption|assumption].
      apply tltb_spec in E2. rewrite E2. reflexivity.
    + rewrite fltb_false_lex in E1, E2 by assumption.
      destruct (fkey_tie a b Ha Hb E1 E2) as [->|[[-> ->]|[-> ->]]];
        [destruct (get_sign b), (tltb (tkey b) (tkey b)); reflexivity|vm_compute; reflexivity|vm_compute; reflexivity].
Qed.

Lemma Math_max_total : forall a b, is_nan a = false -> is_nan b = false ->
  Math_max a b = if tltb (tkey a) (tkey b) then b else a.
Proof.
  intros a b Ha Hb. unfold Math_max. rewrite Ha, Hb. cbn [orb].
  destruct (a <? b)%float eqn:E1.
  - apply tkey_lt_of_fltb in E1; [|assumption|assumption].
    apply tltb_spec in E1. rewrite E1. reflexivity.
  - destruct (b <? a)%float eqn:E2.
    + apply tkey_lt_of_fltb in E2; [|assumption|assumption].
      destruct (tltb (tkey a) (tkey b)) eqn:E; [|reflexivity].
      apply tltb_spec in E. exfalso. lex_contra.
    + rewrite fltb_false_lex in E1, E2 by assumption.
      destruct (fkey_tie a b Ha Hb E1 E2) as [->|[[-> ->]|[-> ->]]];
        [destruct (get_sign b), (tltb (tkey b) (tkey b)); reflexivity|vm_compute; reflexivity|vm_compute; reflexivity].
Qed.

Lemma clamp_idempotent : forall lo hi v,
  Math_max lo (Math_min hi (Math_max lo (Math_min hi v))) = Math_max lo (Math_min hi v).
Proof.
  intros lo hi v.
  destruct (is_nan lo) eqn:Hlo; [rewrite !(Math_max_nan lo) by auto; reflexivity|].
  destruct (is_nan hi) eqn:Hhi.
  { assert (Hn : forall w, Math_max lo (Math_min hi w) = nan)
      by (intros w; rewrite (Math_min_nan hi w) by auto; apply Math_max_nan; right; exact is_nan_nan).
    rewrite !Hn. reflexivity. }
  destruct (is_nan v) eqn:Hv.
  { rewrite (clamp_nan lo hi v Hv). apply clamp_nan, is_nan_nan. }
  rewrite (Math_min_total hi v) by assumption.
  destruct (tltb (tkey v) (tkey hi)) eqn:E1.
  - rewrite (Math_max_total lo v) by assumption.
    destruct (tltb (tkey lo) (tkey v)) eqn:E2.
    + rewrite (Math_min_total hi v), E1 by assumption. rewrite (Math_max_total lo v), E2 by assumption. reflexivity.
    + rewrite (Math_min_total hi lo) by assumption.
      destruct (tltb (tkey lo) (tkey hi)) eqn:E3.
      * rewrite (Math_max_total lo lo) by assumption. destruct (tltb (tkey lo) (tkey lo)); reflexivity.
      * rewrite (Math_max_total lo hi) by assumption.
        destruct (tltb (tkey lo) (tkey hi)) eqn:E4; [discriminate|reflexivity].
  - rewrite (Math_max_total lo hi) by assumption.
    destruct (tltb (tkey lo) (tkey hi)) eqn:E2.
    + rewrite (Math_min_total hi hi) by assumption. destruct (tltb (tkey hi) (tkey hi)); rewrite (Math_max_total lo hi), E2 by assumption; reflexivity.
    + rewrite (Math_min_total hi lo) by assumption.
      destruct (tltb (tkey lo) (tkey hi)) eqn:E3; [discriminate|].
      rewrite (Math_max_total lo hi), E3 by assumption. reflexivity.
Qed.

(** [validateSize] is idempotent: validating a validated size returns it
    unchanged, for all props, including [NaN] and signed-zero bounds. *)
Theorem validateSize_idempotent : forall props s,
  validateSize props (validateSize props s) = validateSize props s.
Proof.
  intros props s. unfold validateSize at 1. cbn [width height].
  unfold validateSize. cbn [width height]. rewrite !clamp_idempotent. reflexivity.
Qed.

Lemma move_fold_emits : forall props x y ls st,
  isResizing st = true ->
  sizeChanges (fold_left (fun s l => handleResize props l x y s) ls st) =
    sizeChanges st ++ map (dragTarget props x y) ls.
Proof.
  intros props x y ls. induction ls as [|l ls IH]; intros st Hr.
  - rewrite app_nil_r. reflexivity.
  - cbn [fold_left map]. rewrite IH.
    + unfold handleResize. rewrite Hr. cbn. rewrite <- app_assoc. reflexivity.
    + unfold handleResize. rewrite Hr. reflexivity.
Qed.

(** While a drag is in progress, a move emits one [size-change] per
    registered listener pair, in registration order, each computed from its
    own press: a second press before the release makes every move emit two
    sizes. *)
Theorem drag_move_emits_per_press : forall props evs x y,
  isResizing (runView props evs) = true ->
  sizeChanges (runView props (evs ++ [PointerMove x y])) =
    sizeChanges (runView props evs) ++ map (dragTarget props x y) (listeners (runView props evs)).
Proof.
  intros props evs x y Hr. unfold runView, runViewFrom in *. rewrite fold_left_app. cbn [fold_left viewStep].
  exact (move_fold_emits props x y _ _ Hr).
Qed.

Lemma drag_move_emits_per_press_witness :
  sizeChanges (runView defaultViewportProps ([PointerDown 0 0; PointerDown 100 0] ++ [PointerMove 150 0])) =
    sizeChanges (runView defaultViewportProps [PointerDown 0 0; PointerDown 100 0]) ++
    map (dragTarget defaultViewportProps 150 0) (listeners (runView defaultViewportProps [PointerDown 0 0; PointerDown 100 0])).
Proof. apply drag_move_emits_per_press. reflexivity. Defined.

(** Two presses, then one move: two [size-change] events. *)
Example two_presses_two_sizes :
  sizeChanges (runView defaultViewportProps [PointerDown 0 0; PointerDown 100 0; PointerMove 150 0]) =
  [{| width := 950; height := 600 |}; {| width := 850; height := 600 |}].
Proof. vm_compute. reflexivity. Qed.
